(** * Furbreeze/dump: the SES batch sender and the reverse-lookup filter

    A shallow embedding of [ses_tester/index.js] (address validation, the
    rate-limited batch loop, [main]), of [recon/ip_recon.sh] (the address
    filter, the two lookup loops, [sort -u], the validation loop) and of
    the filter of the script that reads out.json, with their properties.

    The two scripts validate text with regular expressions.  The expressions
    are embedded as syntax trees that mirror the literals of the source, and
    are run by a derivative matcher which is proved to decide the language
    of the tree. *)

From Stdlib Require Import Ascii String.
From Stdlib Require DecimalString.
From Stdlib Require Import List Bool Arith Lia NArith Permutation Sorted.
Import ListNotations.

Set Implicit Arguments.

(* ================================================================== *)
(** * Part I: the programs *)
(* ================================================================== *)

(* ================================================================== *)
(** * Regular expressions over an arbitrary alphabet *)
(* ================================================================== *)

Module Regex.

Section Re.
Variable A : Type.

(** Only the constructs the two patterns use: character classes,
    sequencing, alternation, iteration.  Both patterns are anchored with
    [^] and [$], so a test succeeds exactly when the whole subject is in
    the language. *)
Inductive re : Type :=
| Void : re
| Eps : re
| Cls : (A -> bool) -> re
| Cat : re -> re -> re
| Alt : re -> re -> re
| Star : re -> re.

Inductive matches : re -> list A -> Prop :=
| MEps : matches Eps []
| MCls : forall p c, p c = true -> matches (Cls p) [c]
| MCat : forall r1 r2 s1 s2,
    matches r1 s1 -> matches r2 s2 -> matches (Cat r1 r2) (s1 ++ s2)
| MAltL : forall r1 r2 s, matches r1 s -> matches (Alt r1 r2) s
| MAltR : forall r1 r2 s, matches r2 s -> matches (Alt r1 r2) s
| MStar0 : forall r, matches (Star r) []
| MStarS : forall r s1 s2,
    matches r s1 -> matches (Star r) s2 -> matches (Star r) (s1 ++ s2).

(** [r+], [r?] and [r{0,n}] *)
Definition plus (r : re) : re := Cat r (Star r).
Definition opt (r : re) : re := Alt Eps r.
Fixpoint upto (n : nat) (r : re) : re :=
  match n with
  | O => Eps
  | S k => opt (Cat r (upto k r))
  end.

Fixpoint nullable (r : re) : bool :=
  match r with
  | Void => false
  | Eps => true
  | Cls _ => false
  | Cat r1 r2 => nullable r1 && nullable r2
  | Alt r1 r2 => nullable r1 || nullable r2
  | Star _ => true
  end.

(** Constructors that drop [Void] and a leading [Eps], so that
    derivatives stay small. *)
Definition cat (r1 r2 : re) : re :=
  match r1 with
  | Void => Void
  | Eps => r2
  | _ => Cat r1 r2
  end.

Definition alt (r1 r2 : re) : re :=
  match r1, r2 with
  | Void, _ => r2
  | _, Void => r1
  | _, _ => Alt r1 r2
  end.

Fixpoint deriv (c : A) (r : re) : re :=
  match r with
  | Void => Void
  | Eps => Void
  | Cls p => if p c then Eps else Void
  | Cat r1 r2 =>
      if nullable r1
      then alt (cat (deriv c r1) r2) (deriv c r2)
      else cat (deriv c r1) r2
  | Alt r1 r2 => alt (deriv c r1) (deriv c r2)
  | Star r1 => cat (deriv c r1) (Star r1)
  end.

Fixpoint accepts (r : re) (s : list A) : bool :=
  match s with
  | [] => nullable r
  | c :: s' => accepts (deriv c r) s'
  end.

(** [r{n}] and [r{m,n}] *)
Fixpoint times (n : nat) (r : re) : re :=
  match n with
  | O => Eps
  | S k => Cat r (times k r)
  end.

Definition between (m n : nat) (r : re) : re := Cat (times m r) (upto (n - m) r).

End Re.

Arguments Void {A}.
Arguments Eps {A}.

End Regex.

(* ================================================================== *)
(** * ses_tester/index.js *)
(* ================================================================== *)

Module Ses.

Import Regex.

(** ** Strings *)

(** A JavaScript string is a sequence of UTF-16 code units; a regular
    expression without the [u] flag works on code units. *)
Definition jsstring : Type := list N.

(** An ASCII literal of the source as code units. *)
Definition js (s : string) : jsstring :=
  map N_of_ascii (list_ascii_of_string s).

(** [Array.prototype.join] on an array of strings *)
Fixpoint join (sep : jsstring) (l : list jsstring) : jsstring :=
  match l with
  | [] => []
  | [x] => x
  | x :: rest => x ++ sep ++ join sep rest
  end.

(** [`${n}`] for a non-negative integer: its decimal digits *)
Definition Number_toString (n : nat) : jsstring :=
  js (DecimalString.NilZero.string_of_uint (Nat.to_uint n)).

(** ** Constants *)

Definition SENDER_EMAIL : jsstring := js "furbreeze_synack@proton.me".
Definition BATCH_SIZE : nat := 50.
Definition DELAY_BETWEEN_BATCHES : nat := 1000.

(** ** isValidEmail *)

(** The class [\s]: WhiteSpace and LineTerminator code points. *)
Definition whitespace (c : N) : bool :=
  ((0x9 <=? c) && (c <=? 0xD) || (c =? 0x20) || (c =? 0xA0) || (c =? 0x1680)
   || (0x2000 <=? c) && (c <=? 0x200A) || (c =? 0x2028) || (c =? 0x2029)
   || (c =? 0x202F) || (c =? 0x205F) || (c =? 0x3000) || (c =? 0xFEFF))%N.

Definition at_sign : N := 64.
Definition full_stop : N := 46.

(** [[^\s@]] *)
Definition not_space_at (c : N) : bool :=
  negb (whitespace c) && negb (c =? at_sign)%N.

Definition chr (x : N) : re N := Cls (fun c => (c =? x)%N).

(** [/^[^\s@]+@[^\s@]+\.[^\s@]+$/] *)
Definition emailRegex : re N :=
  Cat (plus (Cls not_space_at))
      (Cat (chr at_sign)
           (Cat (plus (Cls not_space_at))
                (Cat (chr full_stop)
                     (plus (Cls not_space_at))))).

Definition isValidEmail (email : jsstring) : bool := accepts emailRegex email.

(** The shape the data model describes: local part, ["@"], domain part,
    both non-empty, no whitespace anywhere. *)
Definition address_shape (s : jsstring) : Prop :=
  exists local domain,
    s = local ++ at_sign :: domain /\ local <> [] /\ domain <> [] /\
    forallb (fun c => negb (whitespace c)) s = true.

(** ** The mail service *)

Inductive promise (A : Type) : Type :=
| Fulfilled : A -> promise A
| Rejected : jsstring -> promise A.   (* the [message] of the error *)

Arguments Rejected {A}.

(** The [params] object handed to [SendEmailCommand] *)
Record params : Type := {
  ToAddresses : list jsstring;
  Html : jsstring;
  Text : jsstring;
  Subject : jsstring;
  Source : jsstring
}.

(** The outside world: what the service answers to the call made for the
    entry at position [pos] of [emailList], and when that answer arrives
    (answers of one batch are handled in order of arrival). *)
Record SESClient : Type := {
  send : nat -> params -> promise jsstring;
  arrival : nat -> nat
}.

Inductive event : Type :=
| console_log : list jsstring -> event
| console_error : list jsstring -> event
| ses_send : params -> event
| sleep : nat -> event.

(** ** sendEmail *)

(** [x || d] for an optional string: [undefined], [null] and the empty string give [d]. *)
Definition or_default (x : option jsstring) (d : jsstring) : jsstring :=
  match x with
  | Some (c :: s) => c :: s
  | _ => d
  end.

(** A default parameter value: used for [undefined] only. *)
Definition default_param (x : option jsstring) (d : jsstring) : jsstring :=
  match x with
  | Some s => s
  | None => d
  end.

(** One call of [sendEmail]: what it does before its first suspension,
    when it settles (0: without waiting for the network), what it prints
    when it settles, and how. *)
Record call : Type := {
  issued : list event;
  settles : nat;
  printed : list event;
  result : promise jsstring
}.

Definition sendEmail (ses : SESClient) (pos : nat) (toAddr : jsstring)
    (subject htmlContent textContent : option jsstring) : call :=
  if negb (isValidEmail toAddr) then
    {| issued := []; settles := 0; printed := [];
       result := Rejected (js "Invalid email address: " ++ toAddr) |}
  else
    let p :=
      {| ToAddresses := [toAddr];
         Html := or_default htmlContent
           (js "<html><body><p>This is a test email from AWS SES!</p></body></html>");
         Text := or_default textContent (js "This is a test email from AWS SES.");
         Subject := default_param subject (js "Test Email");
         Source := SENDER_EMAIL |} in
    match send ses pos p with
    | Fulfilled MessageId =>
        {| issued := [ses_send p]; settles := S (arrival ses pos);
           printed := [console_log
                         [js "Email sent successfully to " ++ toAddr ++ js ":";
                          MessageId]];
           result := Fulfilled MessageId |}
    | Rejected message =>
        {| issued := [ses_send p]; settles := S (arrival ses pos);
           printed := [console_error
                         [js "Error sending email to " ++ toAddr ++ js ":";
                          message]];
           result := Rejected message |}
    end.

(** ** sendBatchEmails *)

Record Success : Type := { email : jsstring; messageId : jsstring }.
Record Failure : Type := { failed_email : jsstring; error : jsstring }.

Record Results : Type := {
  successful : list Success;
  failed : list Failure
}.

(** The state of a run: the [results] object, what the run has done so far,
    and the successive values of [batch] (kept to speak about the
    partition; the program does not store them). *)
Record state : Type := {
  results : Results;
  trace : list event;
  batches : list (list jsstring)
}.

(** [results.successful.push(...)] and [results.failed.push(...)]; [push]
    returns the new length. *)
Definition push_successful (x : Success) (r : Results) : Results * nat :=
  ({| successful := successful r ++ [x]; failed := failed r |},
   S (length (successful r))).

Definition push_failed (x : Failure) (r : Results) : Results * nat :=
  ({| successful := successful r; failed := failed r ++ [x] |},
   S (length (failed r))).

(** [p.then(f)] and [p.catch(g)] for handlers that update [results] and do
    not throw. *)
Definition then_ {A B : Type} (p : promise A) (f : A -> Results -> Results * B)
    (r : Results) : Results * promise B :=
  match p with
  | Fulfilled v => let (r', b) := f v r in (r', Fulfilled b)
  | Rejected m => (r, Rejected m)
  end.

Definition catch_ {B : Type} (p : promise B)
    (g : jsstring -> Results -> Results * B)
    (r : Results) : Results * promise B :=
  match p with
  | Fulfilled v => (r, Fulfilled v)
  | Rejected m => let (r', b) := g m r in (r', Fulfilled b)
  end.

(** The promise built for one element of [batch.map(...)], run when the
    call of [sendEmail] settles. *)
Definition settle (e : jsstring) (c : call) (r : Results)
    : Results * promise nat :=
  let (r1, p1) :=
    then_ (result c)
      (fun id => push_successful {| email := e; messageId := id |}) r in
  catch_ p1 (fun m => push_failed {| failed_email := e; error := m |}) r1.

(** [Promise.all]: the values when every promise is fulfilled, the first
    rejection otherwise. *)
Fixpoint Promise_all {A : Type} (l : list (promise A)) : promise (list A) :=
  match l with
  | [] => Fulfilled []
  | Rejected m :: _ => Rejected m
  | Fulfilled v :: rest =>
      match Promise_all rest with
      | Fulfilled vs => Fulfilled (v :: vs)
      | Rejected m => Rejected m
      end
  end.

(** [Array.prototype.slice(i, j)] for [0 <= i]. *)
Definition slice {A : Type} (i j : nat) (l : list A) : list A :=
  firstn (j - i) (skipn i l).

(** Calls settle in the order of their [settles] time; calls with the same
    time keep the order in which they were made. *)
Fixpoint insert_call (x : jsstring * call) (l : list (jsstring * call))
    : list (jsstring * call) :=
  match l with
  | [] => [x]
  | y :: l' =>
      if settles (snd x) <=? settles (snd y) then x :: y :: l'
      else y :: insert_call x l'
  end.

Definition settle_order (l : list (jsstring * call))
    : list (jsstring * call) :=
  fold_right insert_call [] l.

(** The handlers of the settled calls, run one after the other. *)
Fixpoint settle_all (l : list (jsstring * call)) (r : Results)
    : Results * list (promise nat) :=
  match l with
  | [] => (r, [])
  | (e, c) :: rest =>
      let (r1, p) := settle e c r in
      let (r2, ps) := settle_all rest r1 in
      (r2, p :: ps)
  end.

Section Batch.

Variable ses : SESClient.
Variable emailList : list jsstring.
Variables subject htmlContent textContent : option jsstring.

(** The calls made by [batch.map(...)] for the batch that starts at
    position [i]. *)
Definition batch_calls (i : nat) (batch : list jsstring)
    : list (jsstring * call) :=
  map (fun ke : nat * jsstring =>
         (snd ke, sendEmail ses (fst ke) (snd ke)
                    subject htmlContent textContent))
      (combine (seq i (length batch)) batch).

(** One iteration up to and including [await Promise.all(batchPromises)]. *)
Definition run_batch (i : nat) (st : state) : state * promise (list nat) :=
  let batch := slice i (i + BATCH_SIZE) emailList in
  let calls := batch_calls i batch in
  let settled := settle_order calls in
  let (r, ps) := settle_all settled (results st) in
  ({| results := r;
      trace := trace st ++ flat_map (fun ec => issued (snd ec)) calls
                        ++ flat_map (fun ec => printed (snd ec)) settled;
      batches := batches st ++ [batch] |},
   Promise_all ps).

(** The pause that ends an iteration. *)
Definition pause (i : nat) (st : state) : state :=
  if i + BATCH_SIZE <? length emailList then
    {| results := results st;
       trace := trace st ++ [sleep DELAY_BETWEEN_BATCHES];
       batches := batches st |}
  else st.

(** How a call of an async function ends. *)
Inductive completion : Type :=
| Returned : state -> completion
| Threw : jsstring -> state -> completion.

(** The [for] loop from index [i]; [None] when [fuel] iterations do not
    reach the end of the loop. *)
Fixpoint loop (fuel : nat) (i : nat) (st : state) : option completion :=
  if i <? length emailList then
    match fuel with
    | O => None
    | S fuel' =>
        match run_batch i st with
        | (st1, Fulfilled _) => loop fuel' (i + BATCH_SIZE) (pause i st1)
        | (st1, Rejected m) => Some (Threw m st1)
        end
    end
  else Some (Returned st).

Definition initial : state :=
  {| results := {| successful := []; failed := [] |};
     trace := [];
     batches := [] |}.

Definition sendBatchEmails : option completion :=
  loop (length emailList) 0 initial.

End Batch.

(** ** main *)

(** What a run of the script shows: the console output and the calls to
    the mail service in order, the exit status of the process, and the
    [results] object [main] got back from [sendBatchEmails], if it did. *)
Record run : Type := {
  output : list event;
  status : nat;
  summary : option Results
}.

(** ["\n"] *)
Definition newline : jsstring := [10%N].

Definition main (ses : SESClient) (argv : list jsstring) : option run :=
  let emailList := skipn 2 argv in
  if length emailList =? 0 then
    Some {| output :=
              [console_error
                 [js "Please provide at least one email address as a command line argument"]];
            status := 1;
            summary := None |}
  else
    let invalidEmails := filter (fun e => negb (isValidEmail e)) emailList in
    if 0 <? length invalidEmails then
      Some {| output :=
                [console_error [js "Invalid email addresses found:";
                                join (js ", ") invalidEmails]];
              status := 1;
              summary := None |}
    else
      let starting :=
        console_log [js "Starting to send emails to "
                       ++ Number_toString (length emailList)
                       ++ js " recipients..."] in
      match
        sendBatchEmails ses emailList
          (Some (js "Test Email"))
          (Some (js "<html><body><p>This is a test email from AWS SES!</p></body></html>"))
          (Some (js "This is a test email from AWS SES."))
      with
      | None => None
      | Some (Threw m st) =>
          Some {| output := starting :: trace st
                              ++ [console_error [js "Fatal error:"; m]];
                  status := 1;
                  summary := None |}
      | Some (Returned st) =>
          let r := results st in
          Some {| output :=
                    starting :: trace st
                      ++ [console_log [newline ++ js "Results Summary:"];
                          console_log [js "Successfully sent: "
                                         ++ Number_toString (length (successful r))];
                          console_log [js "Failed: "
                                         ++ Number_toString (length (failed r))]]
                      ++ (if 0 <? length (failed r) then
                            console_log [newline ++ js "Failed emails:"]
                              :: map (fun f => console_log
                                         [failed_email f ++ js ": " ++ error f])
                                     (failed r)
                          else []);
                  status := 0;
                  summary := Some r |}
      end.

(** [main] with the call it awaits in its [try] block left open: [dispatch]
    stands for [sendBatchEmails] with the three texts of [main], and may
    end by throwing.  [main] is the instance for [sendBatchEmails]. *)
Definition main_with (dispatch : list jsstring -> option completion)
    (argv : list jsstring) : option run :=
  let emailList := skipn 2 argv in
  if length emailList =? 0 then
    Some {| output :=
              [console_error
                 [js "Please provide at least one email address as a command line argument"]];
            status := 1;
            summary := None |}
  else
    let invalidEmails := filter (fun e => negb (isValidEmail e)) emailList in
    if 0 <? length invalidEmails then
      Some {| output :=
                [console_error [js "Invalid email addresses found:";
                                join (js ", ") invalidEmails]];
              status := 1;
              summary := None |}
    else
      let starting :=
        console_log [js "Starting to send emails to "
                       ++ Number_toString (length emailList)
                       ++ js " recipients..."] in
      match dispatch emailList with
      | None => None
      | Some (Threw m st) =>
          Some {| output := starting :: trace st
                              ++ [console_error [js "Fatal error:"; m]];
                  status := 1;
                  summary := None |}
      | Some (Returned st) =>
          let r := results st in
          Some {| output :=
                    starting :: trace st
                      ++ [console_log [newline ++ js "Results Summary:"];
                          console_log [js "Successfully sent: "
                                         ++ Number_toString (length (successful r))];
                          console_log [js "Failed: "
                                         ++ Number_toString (length (failed r))]]
                      ++ (if 0 <? length (failed r) then
                            console_log [newline ++ js "Failed emails:"]
                              :: map (fun f => console_log
                                         [failed_email f ++ js ": " ++ error f])
                                     (failed r)
                          else []);
                  status := 0;
                  summary := Some r |}
      end.

(** ** Vocabulary of the properties *)

(** The events of a trace that reach the mail service, and its pauses. *)
Definition sent (t : list event) : list params :=
  flat_map (fun ev => match ev with ses_send p => [p] | _ => [] end) t.

Definition pauses (t : list event) : list nat :=
  flat_map (fun ev => match ev with sleep ms => [ms] | _ => [] end) t.

(** The records a list of settled calls leaves in [results]. *)
Definition successes_of (l : list (jsstring * call)) : list Success :=
  flat_map (fun ec : jsstring * call =>
              match result (snd ec) with
              | Fulfilled id => [{| email := fst ec; messageId := id |}]
              | Rejected _ => []
              end) l.

Definition failures_of (l : list (jsstring * call)) : list Failure :=
  flat_map (fun ec : jsstring * call =>
              match result (snd ec) with
              | Fulfilled _ => []
              | Rejected m => [{| failed_email := fst ec; error := m |}]
              end) l.

Definition ceil_div (n w : nat) : nat := (n + w - 1) / w.

Section Windows.

Variable ses : SESClient.
Variable emailList : list jsstring.
Variables subject htmlContent textContent : option jsstring.

(** The [params] that [sendEmail] builds for an address. *)
Definition params_for (toAddr : jsstring) : params :=
  {| ToAddresses := [toAddr];
     Html := or_default htmlContent
       (js "<html><body><p>This is a test email from AWS SES!</p></body></html>");
     Text := or_default textContent (js "This is a test email from AWS SES.");
     Subject := default_param subject (js "Test Email");
     Source := SENDER_EMAIL |}.

(** The [j]-th batch, the calls made for it, and what the run does
    during it. *)
Definition window (j : nat) : list jsstring :=
  slice (j * BATCH_SIZE) (j * BATCH_SIZE + BATCH_SIZE) emailList.

Definition window_calls (j : nat) : list (jsstring * call) :=
  batch_calls ses subject htmlContent textContent (j * BATCH_SIZE) (window j).

Definition window_events (j : nat) : list event :=
  flat_map (fun ec => issued (snd ec)) (window_calls j)
    ++ flat_map (fun ec => printed (snd ec)) (settle_order (window_calls j)).

Definition window_pause (j : nat) : list event :=
  if j * BATCH_SIZE + BATCH_SIZE <? length emailList
  then [sleep DELAY_BETWEEN_BATCHES] else [].

(** One iteration of the loop, and [k] iterations from the start. *)
Definition iteration (st : state) (j : nat) : state :=
  pause emailList (j * BATCH_SIZE)
    (fst (run_batch ses emailList subject htmlContent textContent
            (j * BATCH_SIZE) st)).

Definition iterations (k : nat) : state :=
  fold_left iteration (seq 0 k) initial.

(** The number of iterations, and every call the run makes. *)
Definition rounds : nat := ceil_div (length emailList) BATCH_SIZE.

Definition all_calls : list (jsstring * call) :=
  batch_calls ses subject htmlContent textContent 0 emailList.

End Windows.

(** The arguments [main] passes to [sendBatchEmails], and its usage
    message. *)
Definition usage : jsstring :=
  js "Please provide at least one email address as a command line argument".

Definition main_subject : option jsstring := Some (js "Test Email").
Definition main_html : option jsstring :=
  Some (js "<html><body><p>This is a test email from AWS SES!</p></body></html>").
Definition main_text : option jsstring :=
  Some (js "This is a test email from AWS SES.").

(** ** Inputs used to exercise the theorems *)

(** A service that accepts the calls made for even positions and rejects
    the others, and answers later calls first. *)
Definition example_ses : SESClient :=
  {| send := fun pos _ =>
       if Nat.even pos then Fulfilled (js "0100018f-id") else Rejected (js "Throttling");
     arrival := fun pos => 200 - pos |}.

Definition example_argv (l : list string) : list jsstring :=
  js "node" :: js "index.js" :: map js l.

(** The same service when its answers arrive in the order of the calls. *)
Definition example_ses_in_order : SESClient :=
  {| send := send example_ses; arrival := fun pos => pos |}.

End Ses.

(* ================================================================== *)
(** * recon/ip_recon.sh: the loop that fills out.txt *)
(* ================================================================== *)

Module Recon.

Import Regex.

Local Open Scope char_scope.

(** Lines are byte strings; the bracket ranges are read in the C locale. *)
Definition in_range (lo hi c : ascii) : bool :=
  ((nat_of_ascii lo <=? nat_of_ascii c) && (nat_of_ascii c <=? nat_of_ascii hi))%nat.

(** [[a-zA-Z0-9]] *)
Definition alnum (c : ascii) : bool :=
  in_range "a" "z" c || in_range "A" "Z" c || in_range "0" "9" c.

(** [[a-zA-Z0-9\-]]: the shell removes the backslash, which leaves a
    hyphen at the end of the bracket expression. *)
Definition alnum_hyphen (c : ascii) : bool := alnum c || (c =? "-").

(** [([a-zA-Z0-9]|[a-zA-Z0-9][a-zA-Z0-9\-]{0,61}[a-zA-Z0-9])] *)
Definition label : re ascii :=
  Alt (Cls alnum)
      (Cat (Cls alnum) (Cat (upto 61 (Cls alnum_hyphen)) (Cls alnum))).

Definition dot : re ascii := Cls (fun c => c =? ".").

(** [^label(\.label)*$] *)
Definition hostname_regex : re ascii := Cat label (Star (Cat dot label)).

(** [[[ "$host_stripped" =~ ... ]]] *)
Definition valid_hostname (host_stripped : string) : bool :=
  accepts hostname_regex (list_ascii_of_string host_stripped).

(** [${host%.}]: the value without the shortest suffix matching [.], that
    is without one final dot. *)
Fixpoint remove_trailing_dot (host : string) : string :=
  match host with
  | EmptyString => EmptyString
  | String c EmptyString => if c =? "." then EmptyString else host
  | String c rest => String c (remove_trailing_dot rest)
  end.

(** [[ -n "$host" ]] *)
Definition non_empty (host : string) : bool :=
  match host with
  | EmptyString => false
  | String _ _ => true
  end.

(** The body of the loop for one line of tmp.txt; [out] is the content of
    out.txt, to which [echo ... >> out.txt] adds a line. *)
Definition process_line (out : list string) (host : string) : list string :=
  if non_empty host then
    let host_stripped := remove_trailing_dot host in
    if valid_hostname host_stripped then out ++ [host_stripped] else out
  else out.

(** [while IFS= read -r host; do ... done < "tmp.txt"] *)
Definition validation_loop (tmp : list string) (out : list string)
    : list string :=
  fold_left process_line tmp out.

(** The lines the loop adds. *)
Definition written (tmp : list string) : list string :=
  flat_map
    (fun host =>
       if non_empty host && valid_hostname (remove_trailing_dot host)
       then [remove_trailing_dot host] else [])
    tmp.

(** ** The shape of a valid name *)

(** A label: 1 to 63 letters, digits or hyphens, the first and the last of
    which are not hyphens. *)
Definition label_ok (l : list ascii) : bool :=
  (1 <=? length l)%nat && (length l <=? 63)%nat && forallb alnum_hyphen l
  && alnum (hd "-" l) && alnum (last l "-").

(** Labels joined by dots. *)
Definition dotted (labels : list (list ascii)) : list ascii :=
  match labels with
  | [] => []
  | l :: ls => l ++ flat_map (fun x => "." :: x) ls
  end.

Definition hostname_shape (s : string) : Prop :=
  exists labels,
    labels <> [] /\
    list_ascii_of_string s = dotted labels /\
    Forall (fun l => label_ok l = true) labels.

(** ** The rest of the script *)

(** [[0-9]] *)
Definition digit (c : ascii) : bool := in_range "0" "9" c.

(** [^[0-9]{1,3}\.[0-9]{1,3}\.[0-9]{1,3}\.[0-9]{1,3}$] *)
Definition octet : re ascii := between 1 3 (Cls digit).

Definition ipv4_regex : re ascii :=
  Cat octet (Cat dot (Cat octet (Cat dot (Cat octet (Cat dot octet))))).

(** [[[ "$ip" =~ ... ]]] *)
Definition ipv4_line (ip : string) : bool :=
  accepts ipv4_regex (list_ascii_of_string ip).

(** [grep "pointer"]: the lines in which the word occurs. *)
Fixpoint starts_with (word s : list ascii) : bool :=
  match word, s with
  | [], _ => true
  | _ :: _, [] => false
  | a :: word', b :: s' => (a =? b) && starts_with word' s'
  end.

Fixpoint contains (word s : list ascii) : bool :=
  starts_with word s
  || match s with
     | [] => false
     | _ :: s' => contains word s'
     end.

Definition grep_pointer (lines : list string) : list string :=
  filter (fun l => contains (list_ascii_of_string "pointer")
                     (list_ascii_of_string l))
         lines.

(** [awk '{print $5}']: with the default separator a line is cut into
    fields at runs of spaces and tabs; the fifth field is printed, an empty
    line when there are fewer fields. *)
Definition blank (c : ascii) : bool := (c =? " ") || (c =? "009").

Fixpoint fields_from (cur : list ascii) (s : list ascii) : list (list ascii) :=
  match s with
  | [] =>
      match cur with
      | [] => []
      | _ :: _ => [rev cur]
      end
  | c :: s' =>
      if blank c then
        match cur with
        | [] => fields_from [] s'
        | _ :: _ => rev cur :: fields_from [] s'
        end
      else fields_from (c :: cur) s'
  end.

Definition fields (line : string) : list (list ascii) :=
  fields_from [] (list_ascii_of_string line).

Definition awk_print_5 (lines : list string) : list string :=
  map (fun l => string_of_list_ascii (nth 4 (fields l) [])) lines.

(** [sort -u]: the lines in increasing byte order (C locale), each once. *)
Fixpoint insert_line (x : string) (l : list string) : list string :=
  match l with
  | [] => [x]
  | y :: l' =>
      match String.compare x y with
      | Lt => x :: y :: l'
      | Eq => y :: l'
      | Gt => y :: insert_line x l'
      end
  end.

Definition sort_u (lines : list string) : list string :=
  fold_right insert_line [] lines.

(** *** Files and lines *)

Definition LF : ascii := "010".
Definition NUL : ascii := "000".

(** A file cut at its newlines: the lines that end with a newline, and what
    follows the last newline. *)
Fixpoint cut (content : string) : list string * string :=
  match content with
  | EmptyString => ([], EmptyString)
  | String c s' =>
      let (ls, rest) := cut s' in
      if c =? LF then (EmptyString :: ls, rest)
      else
        match ls with
        | [] => ([], String c rest)
        | l :: ls' => (String c l :: ls', rest)
        end
  end.

Fixpoint remove_nul (s : string) : string :=
  match s with
  | EmptyString => EmptyString
  | String c s' => if c =? NUL then remove_nul s' else String c (remove_nul s')
  end.

(** What [while IFS= read -r v; do ... done < file] hands to its body: the
    lines that end with a newline, without their NUL bytes; for what
    follows the last newline [read] fails and the body is not run. *)
Definition read_lines (content : string) : list string :=
  map remove_nul (fst (cut content)).

(** The lines [sort], [grep] and [awk] see: a last line without newline is
    a line like the others. *)
Definition text_lines (content : string) : list string :=
  let (ls, rest) := cut content in
  match rest with
  | EmptyString => ls
  | String _ _ => ls ++ [rest]
  end.

(** Lines written one after the other, each followed by a newline. *)
Fixpoint unlines (ls : list string) : string :=
  match ls with
  | [] => EmptyString
  | l :: ls' => (l ++ String LF (unlines ls'))%string
  end.

(** The content of a file that may be absent, as [>>] and [sort] find it:
    nothing when there is no file. *)
Definition content_of (file : option string) : string :=
  match file with
  | Some c => c
  | None => EmptyString
  end.

(** *** The script *)

(** The name servers: what [dig -x ip +short] and [host ip] print on their
    standard output for the address read as the [n]-th line of the input
    file. *)
Record resolver : Type := {
  dig_x : nat -> string -> string;
  host : nat -> string -> string
}.

Inductive lookup : Type :=
| dig_lookup : string -> lookup
| host_lookup : string -> lookup.

(** The first loop: [dig -x "$ip" +short 2>/dev/null >> tmp.txt] for the
    lines that look like an IPv4 address; the state is the content of
    tmp.txt and the lookups made so far. *)
Definition dig_step (dns : resolver) (st : string * list lookup)
    (nip : nat * string) : string * list lookup :=
  let (n, ip) := nip in
  if ipv4_line ip then ((fst st ++ dig_x dns n ip)%string, snd st ++ [dig_lookup ip])
  else st.

(** The second loop:
    [host "$ip" 2>/dev/null | grep "pointer" | awk '{print $5}' >> tmp.txt] *)
Definition host_step (dns : resolver) (st : string * list lookup)
    (nip : nat * string) : string * list lookup :=
  let (n, ip) := nip in
  if ipv4_line ip then
    ((fst st
      ++ unlines (awk_print_5 (grep_pointer (text_lines (host dns n ip)))))%string,
     snd st ++ [host_lookup ip])
  else st.

Definition numbered (lines : list string) : list (nat * string) :=
  combine (seq 0 (length lines)) lines.

(** What a run leaves: the lines printed, the exit status, the lookups
    made, and out.txt and tmp.txt ([None]: there is no such file). *)
Record run : Type := {
  stdout : list string;
  exit_status : nat;
  lookups : list lookup;
  out_txt : option string;
  tmp_txt : option string
}.

(** The script.  [script] is [$0], [argv] the arguments, [read_file] gives
    the content of a regular file, [None] for a name that is not one (the
    input file is readable and is not one of tmp.txt, tmp2.txt and
    out.txt), [tmp0] and [out0] are tmp.txt and out.txt when the script
    starts.  [host] is taken to print text, without NUL bytes. *)
Definition ip_recon (dns : resolver) (read_file : string -> option string)
    (script : string) (argv : list string) (tmp0 out0 : option string) : run :=
  match argv with
  | [ip_file] =>
      match read_file ip_file with
      | None =>
          {| stdout := ["Error: IP file '" ++ ip_file ++ "' not found."]%string;
             exit_status := 1;
             lookups := [];
             out_txt := out0;
             tmp_txt := tmp0 |}
      | Some content =>
          let ips := read_lines content in
          let st1 := fold_left (dig_step dns) (numbered ips) (content_of tmp0, []) in
          let st2 := fold_left (host_step dns) (numbered ips) st1 in
          (* sort -u tmp.txt > tmp2.txt; mv tmp2.txt tmp.txt *)
          let tmp := unlines (sort_u (text_lines (fst st2))) in
          let added := validation_loop (read_lines tmp) [] in
          {| stdout := ["IP processing complete. Results in out.txt"]%string;
             exit_status := 0;
             lookups := snd st2;
             out_txt :=
               match added with
               | [] => out0
               | _ :: _ => Some (content_of out0 ++ unlines added)%string
               end;
             tmp_txt := None |}
      end
  | _ =>
      {| stdout := ["Usage: " ++ script ++ " <ip_file>"]%string;
         exit_status := 1;
         lookups := [];
         out_txt := out0;
         tmp_txt := tmp0 |}
  end.

(** ** Vocabulary of the further properties *)

(** One to three digits. *)
Definition octet_ok (l : list ascii) : bool :=
  (1 <=? length l)%nat && (length l <=? 3)%nat && forallb digit l.

(** Pieces written one after the other. *)
Fixpoint glue (pieces : list string) : string :=
  match pieces with
  | [] => EmptyString
  | x :: rest => (x ++ glue rest)%string
  end.

(** tmp.txt as the two loops leave it: what it held, then what [dig]
    printed, then the names that came out of [host], [grep] and [awk]. *)
Definition tmp_after_loops (dns : resolver) (ips : list string)
    (tmp0 : option string) : string :=
  (content_of tmp0
   ++ glue
        (flat_map (fun nip : nat * string =>
                     if ipv4_line (snd nip)
                     then [dig_x dns (fst nip) (snd nip)] else [])
                  (numbered ips))
   ++ glue
        (flat_map (fun nip : nat * string =>
                     if ipv4_line (snd nip)
                     then [unlines
                             (awk_print_5
                                (grep_pointer (text_lines (host dns (fst nip) (snd nip)))))]
                     else [])
                  (numbered ips)))%string.

(** No occurrence of a character. *)
Fixpoint free_of (c : ascii) (s : string) : bool :=
  match s with
  | EmptyString => true
  | String x s' => negb (x =? c) && free_of c s'
  end.


(** A word for [awk]: not empty, no space, no tab. *)
Definition word (w : string) : bool :=
  non_empty w && forallb (fun c => negb (blank c)) (list_ascii_of_string w).

(** Name servers and an input file used to exercise the theorems; the
    last line of the file has no newline. *)
Definition example_dns : resolver :=
  {| dig_x := fun _ ip =>
       if (ip =? "8.8.8.8")%string then unlines ["dns.google."]%string
       else EmptyString;
     host := fun _ ip =>
       if (ip =? "8.8.8.8")%string
       then unlines ["8.8.8.8.in-addr.arpa domain name pointer dns.google."]%string
       else unlines ["Host 1.1.1.999.in-addr.arpa. not found: 3(NXDOMAIN)"]%string |}.

Definition example_ips : string :=
  (unlines ["8.8.8.8"; "# comment"; "999.1.1.1"; "8.8.8.8 "] ++ "1.1.1.1")%string.

Definition example_files (name : string) : option string :=
  if (name =? "ips.txt")%string then Some example_ips else None.

End Recon.

(* ================================================================== *)
(** * The log filter (the script that reads out.json) *)
(* ================================================================== *)

Module Cors.

Import Ses.

(** An object used as a map from header names to header values; [None]
    is [undefined]. *)
Definition headers : Type := jsstring -> option jsstring.

(** The fields of an [Item] the filter reads; either object may be
    missing. *)
Record Item : Type := {
  request_headers : option headers;
  response_headers : option headers
}.

(** [String.prototype.includes]: [s.includes(word)] *)
Fixpoint startsWith (word s : jsstring) : bool :=
  match word, s with
  | [], _ => true
  | _ :: _, [] => false
  | a :: word', b :: s' => (a =? b)%N && startsWith word' s'
  end.

Fixpoint includes (s word : jsstring) : bool :=
  startsWith word s
  || match s with
     | [] => false
     | _ :: s' => includes s' word
     end.

(** The values the callback can return. *)
Inductive value : Type :=
| undefined : value
| str : jsstring -> value
| boolean : bool -> value.

Definition truthy (v : value) : bool :=
  match v with
  | undefined => false
  | str [] => false
  | str (_ :: _) => true
  | boolean b => b
  end.

(** [i?.response_headers?.[name]] and [i?.request_headers?.[name]] for an
    element [i] of the array that may be [null]. *)
Definition response_header (i : option Item) (name : jsstring) : option jsstring :=
  match i with
  | Some it =>
      match response_headers it with
      | Some h => h name
      | None => None
      end
  | None => None
  end.

Definition request_header (i : option Item) (name : jsstring) : option jsstring :=
  match i with
  | Some it =>
      match request_headers it with
      | Some h => h name
      | None => None
      end
  | None => None
  end.

(** The argument of [includes] is turned into a string: [undefined]
    becomes ["undefined"]. *)
Definition ToString (x : option jsstring) : jsstring :=
  match x with
  | Some s => s
  | None => js "undefined"
  end.

(** The callback of [items.filter]: [a && a.includes(host)] gives [a] when
    [a] is [undefined] or empty. *)
Definition callback (i : option Item) : value :=
  match response_header i (js "Access-Control-Allow-Origin") with
  | None => undefined
  | Some [] => str []
  | Some (c :: a) =>
      boolean (includes (c :: a) (ToString (request_header i (js "Host"))))
  end.

Definition possibly_reflected_cors_origin (items : list (option Item))
    : list (option Item) :=
  filter (fun i => truthy (callback i)) items.

(** An item with the given two headers, to exercise the theorems. *)
Definition example_item (origin host : option string) : option Item :=
  Some {| request_headers :=
            Some (fun name =>
                    if list_eq_dec N.eq_dec name (js "Host")
                    then option_map js host else None);
          response_headers :=
            Some (fun name =>
                    if list_eq_dec N.eq_dec name (js "Access-Control-Allow-Origin")
                    then option_map js origin else None) |}.

End Cors.

(* ================================================================== *)
(** * Part II: their properties *)
(* ================================================================== *)

Module RegexTheory.

Import Regex.

Section Re.

Variable A : Type.

Implicit Types (r : re A) (s : list A) (p : A -> bool) (c : A).

(** ** The matcher decides the language *)

Lemma matches_Void s : ~ matches Void s.
Proof. intro H; inversion H. Qed.

Lemma matches_Eps s : matches Eps s <-> s = [].
Proof.
  split; intro H.
  - now inversion H.
  - subst; constructor.
Qed.

Lemma matches_Cls p s : matches (Cls p) s <-> exists c, s = [c] /\ p c = true.
Proof.
  split.
  - intro H; inversion H; subst; eauto.
  - intros (c & -> & Hc); now constructor.
Qed.

Lemma matches_Cat r1 r2 s :
  matches (Cat r1 r2) s <->
  exists s1 s2, s = s1 ++ s2 /\ matches r1 s1 /\ matches r2 s2.
Proof.
  split.
  - intro H; inversion H; subst; eauto.
  - intros (s1 & s2 & -> & H1 & H2); now constructor.
Qed.

Lemma matches_Alt r1 r2 s :
  matches (Alt r1 r2) s <-> matches r1 s \/ matches r2 s.
Proof.
  split.
  - intro H; inversion H; subst; auto.
  - intros [H | H]; [now apply MAltL | now apply MAltR].
Qed.

Lemma matches_cat r1 r2 s : matches (cat r1 r2) s <-> matches (Cat r1 r2) s.
Proof.
  destruct r1; simpl; try tauto.
  - split; intro H.
    + now apply matches_Void in H.
    + apply matches_Cat in H as (s1 & s2 & _ & H & _).
      now apply matches_Void in H.
  - split; intro H.
    + change s with ([] ++ s). constructor; [constructor | exact H].
    + apply matches_Cat in H as (s1 & s2 & -> & H1 & H2).
      apply matches_Eps in H1; now subst.
Qed.

Lemma matches_alt r1 r2 s : matches (alt r1 r2) s <-> matches (Alt r1 r2) s.
Proof.
  rewrite matches_Alt.
  destruct r1, r2; simpl; rewrite ?matches_Alt;
    intuition (try match goal with
                   | H : matches Void _ |- _ => now apply matches_Void in H
                   end).
Qed.

Lemma nullable_spec r : nullable r = true <-> matches r [].
Proof.
  induction r; simpl.
  - split; [discriminate | intro H; inversion H].
  - split; [constructor | reflexivity].
  - split; [discriminate | intro H; inversion H].
  - rewrite andb_true_iff, IHr1, IHr2, matches_Cat. split.
    + intros [H1 H2]. exists [], []. auto.
    + intros (s1 & s2 & E & H1 & H2).
      symmetry in E. apply app_eq_nil in E as [-> ->]. auto.
  - rewrite orb_true_iff, IHr1, IHr2, matches_Alt. tauto.
  - split; [constructor | reflexivity].
Qed.

(** A non-empty word of [Star r] starts with a non-empty word of [r]. *)
Lemma matches_Star_cons r c s :
  matches (Star r) (c :: s) <->
  exists s1 s2, s = s1 ++ s2 /\ matches r (c :: s1) /\ matches (Star r) s2.
Proof.
  split.
  - intro H. remember (Star r) as r' eqn:Er. remember (c :: s) as w eqn:Ew.
    induction H; try discriminate.
    injection Er as ->.
    destruct s1 as [| a s1]; simpl in Ew.
    + now apply IHmatches2.
    + injection Ew as E1 E2. subst a s. eauto.
  - intros (s1 & s2 & -> & H1 & H2).
    change (c :: s1 ++ s2) with ((c :: s1) ++ s2). now constructor.
Qed.

Lemma matches_Cat_cons r1 r2 c s :
  matches (Cat r1 r2) (c :: s) <->
  (exists s1 s2, s = s1 ++ s2 /\ matches r1 (c :: s1) /\ matches r2 s2) \/
  (matches r1 [] /\ matches r2 (c :: s)).
Proof.
  rewrite matches_Cat. split.
  - intros (s1 & s2 & E & H1 & H2).
    destruct s1 as [| a s1]; simpl in E.
    + right. subst. auto.
    + injection E as E1 E2. subst a s. left. eauto.
  - intros [(s1 & s2 & -> & H1 & H2) | [H1 H2]].
    + exists (c :: s1), s2. auto.
    + exists [], (c :: s). auto.
Qed.

Lemma deriv_spec c r : forall s, matches (deriv c r) s <-> matches r (c :: s).
Proof.
  induction r; intro s; simpl.
  - split; intro H; inversion H.
  - split; intro H; inversion H.
  - rewrite matches_Cls. destruct (b c) eqn:Eb.
    + rewrite matches_Eps. split.
      * intros ->. eauto.
      * intros (c' & E & _). now injection E.
    + split.
      * intro H; now apply matches_Void in H.
      * intros (c' & E & Hc). injection E as <- _. congruence.
  - rewrite matches_Cat_cons.
    destruct (nullable r1) eqn:En.
    + rewrite matches_alt, matches_Alt, matches_cat, matches_Cat, IHr2.
      apply nullable_spec in En. split.
      * intros [(s1 & s2 & -> & H1 & H2) | H].
        -- left. exists s1, s2. rewrite <- IHr1. auto.
        -- right. auto.
      * intros [(s1 & s2 & -> & H1 & H2) | [_ H]].
        -- left. exists s1, s2. rewrite IHr1. auto.
        -- right. auto.
    + rewrite matches_cat, matches_Cat. split.
      * intros (s1 & s2 & -> & H1 & H2).
        left. exists s1, s2. rewrite <- IHr1. auto.
      * intros [(s1 & s2 & -> & H1 & H2) | [H _]].
        -- exists s1, s2. rewrite IHr1. auto.
        -- apply nullable_spec in H. congruence.
  - rewrite matches_alt, !matches_Alt, IHr1, IHr2. tauto.
  - rewrite matches_cat, matches_Cat, matches_Star_cons. split.
    + intros (s1 & s2 & -> & H1 & H2). exists s1, s2. rewrite <- IHr. auto.
    + intros (s1 & s2 & -> & H1 & H2). exists s1, s2. rewrite IHr. auto.
Qed.

Theorem accepts_spec r s : accepts r s = true <-> matches r s.
Proof.
  revert r. induction s as [| c s IH]; intro r; simpl.
  - apply nullable_spec.
  - rewrite IH. apply deriv_spec.
Qed.

(** A word of [Star r] is a sequence of words of [r]. *)
Lemma matches_Star_concat r s :
  matches (Star r) s <-> exists ws, s = concat ws /\ Forall (matches r) ws.
Proof.
  split.
  - intro H. remember (Star r) as r' eqn:Er.
    induction H; try discriminate.
    + exists []. auto.
    + injection Er as ->.
      destruct (IHmatches2 eq_refl) as (ws & -> & Hws).
      exists (s1 :: ws). auto.
  - intros (ws & -> & Hws). induction Hws; simpl; now constructor.
Qed.

(** ** Languages of the derived forms over one character class *)

Lemma matches_Star_Cls p s :
  matches (Star (Cls p)) s <-> forallb p s = true.
Proof.
  induction s as [| c s IH]; simpl.
  - split; [reflexivity | constructor].
  - rewrite matches_Star_cons, andb_true_iff, <- IH. split.
    + intros (s1 & s2 & -> & H1 & H2).
      apply matches_Cls in H1 as (c' & E & Hc).
      injection E as E1 E2. subst c' s1. auto.
    + intros [Hc H]. exists [], s. split; [reflexivity |].
      split; [now constructor | exact H].
Qed.

Lemma matches_plus_Cls p s :
  matches (plus (Cls p)) s <-> s <> [] /\ forallb p s = true.
Proof.
  unfold plus. rewrite matches_Cat. split.
  - intros (s1 & s2 & -> & H1 & H2).
    apply matches_Cls in H1 as (c & -> & Hc).
    apply matches_Star_Cls in H2. simpl. rewrite Hc, H2.
    split; [discriminate | reflexivity].
  - intros [Hne H]. destruct s as [| c s]; [congruence |].
    simpl in H. apply andb_true_iff in H as [Hc H].
    exists [c], s. split; [reflexivity |].
    split; [now constructor | now apply matches_Star_Cls].
Qed.

Lemma matches_upto_Cls p n s :
  matches (upto n (Cls p)) s <-> length s <= n /\ forallb p s = true.
Proof.
  revert s. induction n as [| n IH]; intro s; simpl.
  - rewrite matches_Eps. split.
    + intros ->. auto.
    + intros [H _]. destruct s; [reflexivity | simpl in H; lia].
  - unfold opt. rewrite matches_Alt, matches_Eps, matches_Cat. split.
    + intros [-> | (s1 & s2 & -> & H1 & H2)].
      * simpl. split; [lia | reflexivity].
      * apply matches_Cls in H1 as (c & -> & Hc).
        apply IH in H2 as [Hl H2]. simpl. rewrite Hc, H2.
        split; [lia | reflexivity].
    + intros [Hl H]. destruct s as [| c s]; [now left | right].
      simpl in *. apply andb_true_iff in H as [Hc H].
      exists [c], s. split; [reflexivity |].
      split; [now constructor | apply IH; split; [lia | exact H]].
Qed.

Lemma matches_times_Cls p n s :
  matches (times n (Cls p)) s <-> length s = n /\ forallb p s = true.
Proof.
  revert s. induction n as [| n IH]; intro s; simpl.
  - rewrite matches_Eps. split.
    + intros ->. auto.
    + intros [H _]. now destruct s.
  - rewrite matches_Cat. split.
    + intros (s1 & s2 & -> & H1 & H2).
      apply matches_Cls in H1 as (c & -> & Hc).
      apply IH in H2 as [Hl H2]. simpl. rewrite Hc, H2, Hl. auto.
    + intros [Hl H]. destruct s as [| c s]; [discriminate |].
      simpl in *. apply andb_true_iff in H as [Hc H].
      exists [c], s. split; [reflexivity |].
      split; [now constructor | apply IH; split; [lia | exact H]].
Qed.

Lemma matches_between_Cls p m n s :
  m <= n ->
  (matches (between m n (Cls p)) s <->
   m <= length s /\ length s <= n /\ forallb p s = true).
Proof.
  intro Hmn. unfold between. rewrite matches_Cat. split.
  - intros (s1 & s2 & -> & H1 & H2).
    apply matches_times_Cls in H1 as [L1 F1].
    apply matches_upto_Cls in H2 as [L2 F2].
    rewrite length_app, forallb_app, F1, F2. repeat split; lia.
  - intros (Hm & Hn & F).
    exists (firstn m s), (skipn m s).
    rewrite <- (firstn_skipn m s) in F. rewrite forallb_app in F.
    apply andb_true_iff in F as [F1 F2].
    split; [now rewrite firstn_skipn |]. split.
    + apply matches_times_Cls. split; [| exact F1].
      apply firstn_length_le. exact Hm.
    + apply matches_upto_Cls. split; [| exact F2].
      rewrite length_skipn. lia.
Qed.

End Re.

End RegexTheory.

Module SesTheory.

Import Regex RegexTheory Ses.

(** ** What [isValidEmail] accepts *)

Lemma forallb_not_space_at (s : jsstring) :
  forallb not_space_at s = true <->
  forallb (fun c => negb (whitespace c)) s = true /\ ~ In at_sign s.
Proof.
  induction s as [| c s IH]; simpl.
  - tauto.
  - unfold not_space_at at 1.
    rewrite !andb_true_iff, IH, !negb_true_iff, N.eqb_neq. intuition congruence.
Qed.

Lemma matches_chr (x : N) (s : jsstring) : matches (chr x) s <-> s = [x].
Proof.
  unfold chr. rewrite matches_Cls. split.
  - intros (c & -> & Hc). apply N.eqb_eq in Hc. now subst.
  - intros ->. exists x. split; [reflexivity | apply N.eqb_refl].
Qed.

(** The language of [emailRegex]: three non-empty runs of characters other
    than whitespace and ["@"], separated by ["@"] and ["."]. *)
Lemma isValidEmail_spec (s : jsstring) :
  isValidEmail s = true <->
  exists l d t,
    s = l ++ at_sign :: d ++ full_stop :: t /\
    (l <> [] /\ forallb not_space_at l = true) /\
    (d <> [] /\ forallb not_space_at d = true) /\
    (t <> [] /\ forallb not_space_at t = true).
Proof.
  unfold isValidEmail, emailRegex. rewrite accepts_spec. split.
  - intro H.
    apply matches_Cat in H as (l & s1 & -> & Hl & H).
    apply matches_Cat in H as (a & s2 & -> & Ha & H).
    apply matches_Cat in H as (d & s3 & -> & Hd & H).
    apply matches_Cat in H as (f & t & -> & Hf & Ht).
    apply matches_chr in Ha, Hf. subst a f.
    apply matches_plus_Cls in Hl, Hd, Ht.
    exists l, d, t. simpl. auto.
  - intros (l & d & t & -> & Hl & Hd & Ht).
    apply matches_plus_Cls in Hl, Hd, Ht.
    apply MCat; [exact Hl |].
    apply (MCat (s1 := [at_sign])); [now apply matches_chr |].
    apply MCat; [exact Hd |].
    apply (MCat (s1 := [full_stop])); [now apply matches_chr | exact Ht].
Qed.

(** Every accepted address has the shape of the data model. *)
Lemma isValidEmail_shape (s : jsstring) :
  isValidEmail s = true -> address_shape s.
Proof.
  intro H. apply isValidEmail_spec in H
    as (l & d & t & -> & [Hl Fl] & [Hd Fd] & [Ht Ft]).
  exists l, (d ++ full_stop :: t). split; [reflexivity |].
  split; [exact Hl |]. split; [now destruct d |].
  apply forallb_not_space_at in Fl as [Fl _].
  apply forallb_not_space_at in Fd as [Fd _].
  apply forallb_not_space_at in Ft as [Ft _].
  rewrite forallb_app. simpl. rewrite forallb_app. simpl.
  now rewrite Fl, Fd, Ft.
Qed.

(** C6, the claim as written fails: ["a@b"] and ["a@b@c.d"] have a
    non-empty local part, a non-empty domain part and no whitespace, and
    [isValidEmail] rejects both, the first for the lack of a dot inside the
    domain part, the second for its second ["@"]. *)
Lemma address_shape_rejected :
  (address_shape (js "a@b") /\ isValidEmail (js "a@b") = false) /\
  (address_shape (js "a@b@c.d") /\ isValidEmail (js "a@b@c.d") = false).
Proof.
  split; (split; [| reflexivity]).
  - exists (js "a"), (js "b").
    repeat split; try reflexivity; discriminate.
  - exists (js "a"), (js "b@c.d").
    repeat split; try reflexivity; discriminate.
Qed.

(** C6, amended.  [isValidEmail] accepts [s] exactly when [s] is a
    non-empty local part, ["@"], and a domain part, where [s] holds no
    whitespace, neither part holds an ["@"], and the domain part holds a
    ["."] that is neither its first nor its last character. *)
Theorem isValidEmail_accepts_iff (s : jsstring) :
  isValidEmail s = true <->
  exists local domain,
    s = local ++ at_sign :: domain /\
    local <> [] /\
    forallb (fun c => negb (whitespace c)) s = true /\
    ~ In at_sign local /\ ~ In at_sign domain /\
    exists d t, domain = d ++ full_stop :: t /\ d <> [] /\ t <> [].
Proof.
  rewrite isValidEmail_spec. split.
  - intros (l & d & t & -> & [Hl Fl] & [Hd Fd] & [Ht Ft]).
    apply forallb_not_space_at in Fl as [Fl Al].
    apply forallb_not_space_at in Fd as [Fd Ad].
    apply forallb_not_space_at in Ft as [Ft At].
    exists l, (d ++ full_stop :: t). split; [reflexivity |].
    split; [exact Hl |]. split.
    { rewrite forallb_app. simpl. rewrite forallb_app. simpl.
      now rewrite Fl, Fd, Ft. }
    split; [exact Al |]. split.
    { rewrite in_app_iff. simpl. unfold full_stop, at_sign in *.
      intros [H | [H | H]]; [tauto | discriminate | tauto]. }
    exists d, t. auto.
  - intros (l & dom & -> & Hl & F & Al & Ad & d & t & -> & Hd & Ht).
    rewrite forallb_app in F. simpl in F. rewrite forallb_app in F. simpl in F.
    rewrite !andb_true_iff in F. destruct F as (Fl & Fd & Ft).
    rewrite in_app_iff in Ad. simpl in Ad.
    exists l, d, t. split; [reflexivity |].
    rewrite !forallb_not_space_at. tauto.
Qed.

Example isValidEmail_examples :
  map (fun a => isValidEmail (js a))
      ["user@example.com"; "a@b.c"; "a@b..c"; "a@b"; "a@b."; "a@.b"; "@b.c";
       "a b@c.d"; "a@b@c.d"; EmptyString]%string
  = [true; true; true; false; false; false; false; false; false; false].
Proof. reflexivity. Qed.

(** The no-break space U+00A0 is whitespace for [\s]. *)
Example isValidEmail_nbsp :
  isValidEmail (js "a" ++ [0xA0%N] ++ js "@b.c") = false.
Proof. reflexivity. Qed.

(** ** One batch *)

Lemma BATCH_SIZE_pos : 0 < BATCH_SIZE.
Proof. unfold BATCH_SIZE. lia. Qed.

Lemma insert_call_perm x l : Permutation (insert_call x l) (x :: l).
Proof.
  induction l as [| y l IH]; simpl.
  - apply Permutation_refl.
  - destruct (settles (snd x) <=? settles (snd y)).
    + apply Permutation_refl.
    + eapply perm_trans; [apply perm_skip, IH | apply perm_swap].
Qed.

Lemma settle_order_perm l : Permutation (settle_order l) l.
Proof.
  induction l as [| x l IH]; simpl.
  - constructor.
  - eapply perm_trans; [apply insert_call_perm | now apply perm_skip].
Qed.

(** Whatever the call did, the promise chained on it is fulfilled. *)
Lemma settle_fulfilled e c r : exists n, snd (settle e c r) = Fulfilled n.
Proof.
  unfold settle, then_, catch_, push_successful, push_failed.
  destruct (result c); simpl; eauto.
Qed.

Lemma settle_all_results l : forall r,
  fst (settle_all l r) =
  {| successful := successful r ++ successes_of l;
     failed := failed r ++ failures_of l |}.
Proof.
  unfold successes_of, failures_of.
  induction l as [| [e c] l IH]; intro r; simpl.
  - rewrite !app_nil_r. now destruct r.
  - unfold settle, then_, catch_, push_successful, push_failed.
    destruct (result c) eqn:E; simpl;
      match goal with
      | |- context [settle_all l ?r'] =>
          specialize (IH r'); destruct (settle_all l r') as [r2 ps]
      end; simpl in *; subst r2; now rewrite <- ?app_assoc.
Qed.

Lemma settle_all_fulfilled l : forall r,
  exists vs, Promise_all (snd (settle_all l r)) = Fulfilled vs.
Proof.
  induction l as [| [e c] l IH]; intro r; simpl.
  - eauto.
  - destruct (settle_fulfilled e c r) as [n Hn].
    destruct (settle e c r) as [r1 p]. simpl in Hn. subst p.
    destruct (IH r1) as [vs Hvs].
    destruct (settle_all l r1) as [r2 ps]. simpl in *.
    rewrite Hvs. eauto.
Qed.

(** ** The loop *)

Lemma ceil_div_unique n w k :
  0 < w -> n <= k * w -> (k = 0 \/ (k - 1) * w < n) -> k = ceil_div n w.
Proof.
  intros Hw Hle [-> | Hlt]; unfold ceil_div.
  - simpl in Hle. replace n with 0 by lia. simpl.
    symmetry. apply Nat.div_small. lia.
  - apply Nat.div_unique with (r := n + w - 1 - w * k); nia.
Qed.

Section Loop.

Variable ses : SESClient.
Variable emailList : list jsstring.
Variables subject htmlContent textContent : option jsstring.

Local Abbreviation window := (Ses.window emailList).
Local Abbreviation window_calls :=
  (Ses.window_calls ses emailList subject htmlContent textContent).
Local Abbreviation window_events :=
  (Ses.window_events ses emailList subject htmlContent textContent).
Local Abbreviation window_pause := (Ses.window_pause emailList).
Local Abbreviation iteration :=
  (Ses.iteration ses emailList subject htmlContent textContent).
Local Abbreviation iterations :=
  (Ses.iterations ses emailList subject htmlContent textContent).
Local Abbreviation run_batch' :=
  (run_batch ses emailList subject htmlContent textContent).
Local Abbreviation loop' :=
  (loop ses emailList subject htmlContent textContent).

Lemma run_batch_eq i st :
  let calls :=
    batch_calls ses subject htmlContent textContent i
      (slice i (i + BATCH_SIZE) emailList) in
  exists vs,
    run_batch' i st =
    ({| results :=
          {| successful := successful (results st)
                             ++ successes_of (settle_order calls);
             failed := failed (results st)
                         ++ failures_of (settle_order calls) |};
        trace := trace st
                   ++ flat_map (fun ec => issued (snd ec)) calls
                   ++ flat_map (fun ec => printed (snd ec)) (settle_order calls);
        batches := batches st ++ [slice i (i + BATCH_SIZE) emailList] |},
     Fulfilled vs).
Proof.
  intro calls. unfold run_batch. fold calls.
  pose proof (settle_all_results (settle_order calls) (results st)) as Hr.
  destruct (settle_all_fulfilled (settle_order calls) (results st)) as [vs Hvs].
  destruct (settle_all (settle_order calls) (results st)) as [r ps].
  simpl in Hr, Hvs. subst r. rewrite Hvs. eauto.
Qed.

(** [await Promise.all(batchPromises)] never throws. *)
Lemma run_batch_fulfilled i st : exists vs, snd (run_batch' i st) = Fulfilled vs.
Proof.
  destruct (run_batch_eq i st) as [vs H]. rewrite H. simpl. eauto.
Qed.

Lemma iterations_S k : iterations (S k) = iteration (iterations k) k.
Proof.
  unfold iterations. rewrite seq_S, fold_left_app. reflexivity.
Qed.

(** An invariant kept by the body holds when the loop ends, and the loop
    ends by its guard within [length emailList] iterations. *)
Lemma loop_invariant (Inv : nat -> state -> Prop) :
  (forall i st, i < length emailList -> Inv i st ->
     Inv (i + BATCH_SIZE) (pause emailList i (fst (run_batch' i st)))) ->
  forall fuel i st,
    length emailList - i <= fuel -> Inv i st ->
    exists i' st',
      loop' fuel i st = Some (Returned st') /\
      length emailList <= i' /\ Inv i' st'.
Proof.
  intros Hstep. induction fuel as [| fuel IH]; intros i st Hfuel Hinv.
  - simpl. destruct (i <? length emailList) eqn:E.
    + apply Nat.ltb_lt in E. lia.
    + apply Nat.ltb_ge in E. eauto.
  - simpl. destruct (i <? length emailList) eqn:E.
    + apply Nat.ltb_lt in E.
      specialize (Hstep i st E Hinv).
      destruct (run_batch_fulfilled i st) as [vs Hvs].
      destruct (run_batch' i st) as [st1 p]. simpl in Hvs, Hstep. subst p.
      apply IH; [| exact Hstep].
      pose proof BATCH_SIZE_pos. lia.
    + apply Nat.ltb_ge in E. eauto.
Qed.

(** The run is the sequence of its [ceil(N / BATCH_SIZE)] iterations. *)
Lemma sendBatchEmails_iterations :
  sendBatchEmails ses emailList subject htmlContent textContent =
  Some (Returned (iterations (ceil_div (length emailList) BATCH_SIZE))).
Proof.
  unfold sendBatchEmails.
  destruct (loop_invariant
              (fun i st => exists k, i = k * BATCH_SIZE /\
                 (k = 0 \/ (k - 1) * BATCH_SIZE < length emailList) /\
                 st = iterations k))
    with (fuel := length emailList) (i := 0) (st := initial)
    as (i' & st' & Hrun & Hend & k & -> & Hk & ->).
  - intros i st Hi (k & -> & Hk & ->). exists (S k).
    split; [lia |]. split; [right; replace (S k - 1) with k by lia; exact Hi |].
    now rewrite iterations_S.
  - lia.
  - exists 0. auto.
  - rewrite Hrun. do 2 f_equal. f_equal.
    apply ceil_div_unique; [apply BATCH_SIZE_pos | exact Hend | exact Hk].
Qed.

(** *** The state after [k] iterations *)

Lemma pause_results i st : results (pause emailList i st) = results st.
Proof. unfold pause. now destruct (_ <? _). Qed.

Lemma pause_batches i st : batches (pause emailList i st) = batches st.
Proof. unfold pause. now destruct (_ <? _). Qed.

Lemma pause_trace j st :
  trace (pause emailList (j * BATCH_SIZE) st) = trace st ++ window_pause j.
Proof.
  unfold pause, window_pause. destruct (_ <? _); simpl.
  - reflexivity.
  - now rewrite app_nil_r.
Qed.

Lemma iterations_batches k : batches (iterations k) = map window (seq 0 k).
Proof.
  induction k as [| k IH]; [reflexivity |].
  rewrite iterations_S, seq_S, map_app. unfold iteration.
  rewrite pause_batches.
  destruct (run_batch_eq (k * BATCH_SIZE) (iterations k)) as [vs ->].
  simpl. now rewrite IH.
Qed.

Lemma iterations_trace k :
  trace (iterations k) =
  flat_map (fun j => window_events j ++ window_pause j) (seq 0 k).
Proof.
  induction k as [| k IH]; [reflexivity |].
  rewrite iterations_S, seq_S, flat_map_app. unfold iteration.
  rewrite pause_trace.
  destruct (run_batch_eq (k * BATCH_SIZE) (iterations k)) as [vs ->].
  simpl. rewrite IH, app_nil_r. unfold window_events, window_calls, window.
  now rewrite <- !app_assoc.
Qed.

Lemma iterations_successful k :
  successful (results (iterations k)) =
  flat_map (fun j => successes_of (settle_order (window_calls j))) (seq 0 k).
Proof.
  induction k as [| k IH]; [reflexivity |].
  rewrite iterations_S, seq_S, flat_map_app. unfold iteration.
  rewrite pause_results.
  destruct (run_batch_eq (k * BATCH_SIZE) (iterations k)) as [vs ->].
  simpl. now rewrite IH, app_nil_r.
Qed.

Lemma iterations_failed k :
  failed (results (iterations k)) =
  flat_map (fun j => failures_of (settle_order (window_calls j))) (seq 0 k).
Proof.
  induction k as [| k IH]; [reflexivity |].
  rewrite iterations_S, seq_S, flat_map_app. unfold iteration.
  rewrite pause_results.
  destruct (run_batch_eq (k * BATCH_SIZE) (iterations k)) as [vs ->].
  simpl. now rewrite IH, app_nil_r.
Qed.

End Loop.

(** ** Lists *)

Lemma firstn_add {A : Type} (a b : nat) : forall l : list A,
  firstn (a + b) l = firstn a l ++ firstn b (skipn a l).
Proof.
  induction a as [| a IH]; intro l; simpl.
  - reflexivity.
  - destruct l as [| x l]; simpl.
    + now rewrite firstn_nil.
    + now rewrite IH.
Qed.

Lemma slice_length {A : Type} (i w : nat) (l : list A) :
  length (slice i (i + w) l) = Nat.min w (length l - i).
Proof.
  unfold slice. rewrite length_firstn, length_skipn.
  replace (i + w - i) with w by lia. reflexivity.
Qed.

Lemma flat_map_flat_map {A B C : Type} (f : B -> list C) (g : A -> list B)
    (l : list A) :
  flat_map f (flat_map g l) = flat_map (fun x => flat_map f (g x)) l.
Proof.
  induction l as [| x l IH]; simpl.
  - reflexivity.
  - now rewrite flat_map_app, IH.
Qed.

Lemma nth_map_seq {A : Type} (f : nat -> A) (k j : nat) (d : A) :
  j < k -> nth j (map f (seq 0 k)) d = f j.
Proof.
  intro H. rewrite nth_indep with (d' := f 0) by now rewrite length_map, length_seq.
  rewrite map_nth, seq_nth; [reflexivity | exact H].
Qed.

Lemma ceil_div_bounds n w :
  0 < w ->
  n <= ceil_div n w * w /\ (ceil_div n w = 0 \/ (ceil_div n w - 1) * w < n).
Proof.
  intro Hw. unfold ceil_div.
  pose proof (Nat.div_mod_eq (n + w - 1) w) as E.
  pose proof (Nat.mod_upper_bound (n + w - 1) w ltac:(lia)) as U.
  split; [nia |].
  destruct ((n + w - 1) / w) as [| q]; [now left | right].
  replace (S q - 1) with q by lia. nia.
Qed.

Lemma sent_app t1 t2 : sent (t1 ++ t2) = sent t1 ++ sent t2.
Proof. apply flat_map_app. Qed.

Lemma pauses_app t1 t2 : pauses (t1 ++ t2) = pauses t1 ++ pauses t2.
Proof. apply flat_map_app. Qed.

Lemma sent_flat_map {A : Type} (g : A -> list event) (l : list A) :
  sent (flat_map g l) = flat_map (fun x => sent (g x)) l.
Proof. apply flat_map_flat_map. Qed.

Lemma pauses_flat_map {A : Type} (g : A -> list event) (l : list A) :
  pauses (flat_map g l) = flat_map (fun x => pauses (g x)) l.
Proof. apply flat_map_flat_map. Qed.

(** ** The calls of a run *)

Section Calls.

Variable ses : SESClient.
Variables subject htmlContent textContent : option jsstring.

Local Abbreviation params_for :=
  (Ses.params_for subject htmlContent textContent).
Local Abbreviation sendEmail' pos e :=
  (sendEmail ses pos e subject htmlContent textContent).
Local Abbreviation batch_calls' :=
  (batch_calls ses subject htmlContent textContent).

Lemma sendEmail_invalid pos e :
  isValidEmail e = false ->
  sendEmail' pos e =
  {| issued := []; settles := 0; printed := [];
     result := Rejected (js "Invalid email address: " ++ e) |}.
Proof. intro H. unfold sendEmail. now rewrite H. Qed.

Lemma sendEmail_issued pos e :
  issued (sendEmail' pos e) =
  if isValidEmail e then [ses_send (params_for e)] else [].
Proof.
  unfold sendEmail. fold (params_for e).
  destruct (isValidEmail e); simpl; [| reflexivity].
  now destruct (send ses pos (params_for e)).
Qed.

Lemma sendEmail_result pos e :
  isValidEmail e = true ->
  result (sendEmail' pos e) = send ses pos (params_for e).
Proof.
  intro H. unfold sendEmail. fold (params_for e). rewrite H. simpl.
  now destruct (send ses pos (params_for e)).
Qed.

(** What [sendEmail] prints is console output. *)
Lemma sendEmail_printed pos e :
  sent (printed (sendEmail' pos e)) = [] /\
  pauses (printed (sendEmail' pos e)) = [].
Proof.
  unfold sendEmail. destruct (isValidEmail e); simpl; [| auto].
  destruct (send ses pos _); simpl; auto.
Qed.

Lemma sendEmail_no_pause pos e : pauses (issued (sendEmail' pos e)) = [].
Proof. rewrite sendEmail_issued. now destruct (isValidEmail e). Qed.

Lemma batch_calls_app (a b : list jsstring) : forall i,
  batch_calls' i (a ++ b) = batch_calls' i a ++ batch_calls' (i + length a) b.
Proof.
  unfold batch_calls. induction a as [| x a IH]; intro i; simpl.
  - now rewrite Nat.add_0_r.
  - f_equal. rewrite length_app in *. rewrite IH.
    now replace (S i + length a) with (i + S (length a)) by lia.
Qed.

Lemma batch_calls_In (l : list jsstring) : forall i e c,
  In (e, c) (batch_calls' i l) <->
  exists pos, nth_error l pos = Some e /\ c = sendEmail' (i + pos) e.
Proof.
  unfold batch_calls. induction l as [| x l IH]; intros i e c; simpl.
  - split; [tauto |]. intros (pos & H & _). now destruct pos.
  - rewrite IH. split.
    + intros [H | (pos & H1 & H2)].
      * injection H as <- <-. exists 0. now rewrite Nat.add_0_r.
      * exists (S pos). split; [exact H1 |].
        now replace (i + S pos) with (S i + pos) by lia.
    + intros ([| pos] & H1 & H2); simpl in H1.
      * injection H1 as ->. left. now rewrite Nat.add_0_r in H2; subst.
      * right. exists pos. split; [exact H1 |].
        now replace (S i + pos) with (i + S pos) by lia.
Qed.

Lemma batch_calls_emails (l : list jsstring) : forall i,
  map fst (batch_calls' i l) = l.
Proof.
  unfold batch_calls. induction l as [| x l IH]; intro i; simpl.
  - reflexivity.
  - now rewrite IH.
Qed.

Lemma batch_calls_sent (l : list jsstring) : forall i,
  sent (flat_map (fun ec => issued (snd ec)) (batch_calls' i l)) =
  map params_for (filter isValidEmail l).
Proof.
  unfold batch_calls. induction l as [| x l IH]; intro i; simpl.
  - reflexivity.
  - rewrite sent_app, IH, sendEmail_issued.
    now destruct (isValidEmail x).
Qed.

Lemma batch_calls_quiet (l : list jsstring) : forall i ec,
  In ec (batch_calls' i l) ->
  sent (printed (snd ec)) = [] /\ pauses (printed (snd ec)) = [] /\
  pauses (issued (snd ec)) = [].
Proof.
  intros i [e c] H. apply batch_calls_In in H as (pos & _ & ->). simpl.
  split; [apply sendEmail_printed |].
  split; [apply sendEmail_printed | apply sendEmail_no_pause].
Qed.

End Calls.

(** ** The state at the end of a run *)

Lemma flat_map_nil {A B : Type} (f : A -> list B) (l : list A) :
  (forall x, In x l -> f x = []) -> flat_map f l = [].
Proof.
  induction l as [| x l IH]; simpl; intro H.
  - reflexivity.
  - rewrite H by now left. apply IH. intros y Hy. apply H. now right.
Qed.

Lemma flat_map_ext_in {A B : Type} (f g : A -> list B) (l : list A) :
  (forall x, In x l -> f x = g x) -> flat_map f l = flat_map g l.
Proof.
  induction l as [| x l IH]; simpl; intro H.
  - reflexivity.
  - rewrite H by now left. f_equal. apply IH. intros y Hy. apply H. now right.
Qed.

Lemma flat_map_perm {A B : Type} (f g : A -> list B) (l : list A) :
  (forall x, Permutation (f x) (g x)) ->
  Permutation (flat_map f l) (flat_map g l).
Proof.
  intro H. induction l as [| x l IH]; simpl.
  - constructor.
  - now apply Permutation_app.
Qed.

Lemma flat_map_singletons {A B : Type} (f : A -> list B) (d : B) (l : list A) :
  (forall x, In x l -> f x = [d]) -> flat_map f l = repeat d (length l).
Proof.
  induction l as [| x l IH]; simpl; intro H.
  - reflexivity.
  - rewrite H by now left. simpl. f_equal. apply IH.
    intros y Hy. apply H. now right.
Qed.

Section Run.

Variable ses : SESClient.
Variable emailList : list jsstring.
Variables subject htmlContent textContent : option jsstring.

Local Abbreviation rounds := (Ses.rounds emailList).
Local Abbreviation all_calls :=
  (Ses.all_calls ses emailList subject htmlContent textContent).
Local Abbreviation window' := (window emailList).
Local Abbreviation window_calls' :=
  (window_calls ses emailList subject htmlContent textContent).
Local Abbreviation window_events' :=
  (window_events ses emailList subject htmlContent textContent).
Local Abbreviation iterations' :=
  (iterations ses emailList subject htmlContent textContent).
Local Abbreviation batch_calls' :=
  (batch_calls ses subject htmlContent textContent).

Lemma window_next k :
  firstn (S k * BATCH_SIZE) emailList =
  firstn (k * BATCH_SIZE) emailList ++ window' k.
Proof.
  unfold window, slice.
  replace (S k * BATCH_SIZE) with (k * BATCH_SIZE + BATCH_SIZE) by lia.
  rewrite firstn_add.
  now replace (k * BATCH_SIZE + BATCH_SIZE - k * BATCH_SIZE)
    with BATCH_SIZE by lia.
Qed.

Lemma windows_concat k :
  concat (map window' (seq 0 k)) = firstn (k * BATCH_SIZE) emailList.
Proof.
  induction k as [| k IH].
  - reflexivity.
  - rewrite seq_S, map_app, concat_app, IH, window_next. simpl.
    now rewrite app_nil_r.
Qed.

Lemma window_calls_concat k :
  flat_map window_calls' (seq 0 k) =
  batch_calls' 0 (firstn (k * BATCH_SIZE) emailList).
Proof.
  induction k as [| k IH].
  - reflexivity.
  - rewrite seq_S, flat_map_app, IH, window_next, batch_calls_app.
    simpl. rewrite app_nil_r. f_equal. unfold window_calls.
    destruct (Nat.le_gt_cases (k * BATCH_SIZE) (length emailList)) as [H | H].
    + now rewrite firstn_length_le.
    + unfold window, slice. rewrite skipn_all2 by lia.
      now rewrite firstn_nil.
Qed.

Lemma rounds_cover : firstn (rounds * BATCH_SIZE) emailList = emailList.
Proof.
  apply firstn_all2.
  apply (ceil_div_bounds (length emailList) BATCH_SIZE_pos).
Qed.

Lemma window_calls_all : flat_map window_calls' (seq 0 rounds) = all_calls.
Proof. now rewrite window_calls_concat, rounds_cover. Qed.

Lemma sendBatchEmails_returns :
  sendBatchEmails ses emailList subject htmlContent textContent =
  Some (Returned (iterations' rounds)).
Proof. apply sendBatchEmails_iterations. Qed.

Lemma final_batches : batches (iterations' rounds) = map window' (seq 0 rounds).
Proof. apply iterations_batches. Qed.

Lemma final_successful :
  Permutation (successful (results (iterations' rounds)))
              (successes_of all_calls).
Proof.
  rewrite iterations_successful, <- window_calls_all.
  unfold successes_of at 2. rewrite flat_map_flat_map.
  apply flat_map_perm. intro j.
  apply Permutation_flat_map, settle_order_perm.
Qed.

Lemma final_failed :
  Permutation (failed (results (iterations' rounds)))
              (failures_of all_calls).
Proof.
  rewrite iterations_failed, <- window_calls_all.
  unfold failures_of at 2. rewrite flat_map_flat_map.
  apply flat_map_perm. intro j.
  apply Permutation_flat_map, settle_order_perm.
Qed.

Lemma window_calls_quiet j ec :
  In ec (settle_order (window_calls' j)) ->
  sent (printed (snd ec)) = [] /\ pauses (printed (snd ec)) = [] /\
  pauses (issued (snd ec)) = [].
Proof.
  intro H. apply (Permutation_in _ (settle_order_perm _)) in H.
  eapply batch_calls_quiet, H.
Qed.

Lemma window_events_sent j :
  sent (window_events' j) =
  sent (flat_map (fun ec => issued (snd ec)) (window_calls' j)).
Proof.
  unfold window_events. rewrite sent_app.
  rewrite (sent_flat_map (fun ec => printed (snd ec))).
  rewrite (flat_map_nil (fun ec : jsstring * call => sent (printed (snd ec)))).
  - apply app_nil_r.
  - intros ec H. now apply window_calls_quiet in H.
Qed.

(** No pause inside a batch. *)
Lemma window_events_pauses j : pauses (window_events' j) = [].
Proof.
  unfold window_events. rewrite pauses_app, !pauses_flat_map.
  rewrite !flat_map_nil; trivial.
  - intros ec H. now apply window_calls_quiet in H.
  - intros ec H.
    apply (Permutation_in _ (Permutation_sym (settle_order_perm _))) in H.
    now apply window_calls_quiet in H.
Qed.

Lemma window_pause_sent j : sent (window_pause emailList j) = [].
Proof. unfold window_pause. now destruct (_ <? _). Qed.

Lemma final_sent :
  sent (trace (iterations' rounds)) =
  map (params_for subject htmlContent textContent)
      (filter isValidEmail emailList).
Proof.
  rewrite iterations_trace, sent_flat_map.
  rewrite flat_map_ext with
    (g := fun j => sent (flat_map (fun ec => issued (snd ec)) (window_calls' j))).
  - rewrite <- sent_flat_map, <- flat_map_flat_map, window_calls_all.
    apply batch_calls_sent.
  - intro j.
    now rewrite sent_app, window_pause_sent, app_nil_r, window_events_sent.
Qed.

(** A pause follows every batch but the last. *)
Lemma window_pause_eq j :
  j < rounds ->
  window_pause emailList j =
  if S j <? rounds then [sleep DELAY_BETWEEN_BATCHES] else [].
Proof.
  intro Hj. unfold window_pause.
  destruct (ceil_div_bounds (length emailList) BATCH_SIZE_pos) as [Hle Hgt].
  fold rounds in Hle, Hgt.
  destruct (S j <? rounds) eqn:E.
  - apply Nat.ltb_lt in E.
    assert (S j * BATCH_SIZE <= (rounds - 1) * BATCH_SIZE)
      by (apply Nat.mul_le_mono_r; lia).
    destruct Hgt as [Hgt | Hgt]; [lia |].
    assert ((j * BATCH_SIZE + BATCH_SIZE <? length emailList) = true) as ->
      by (apply Nat.ltb_lt; lia).
    reflexivity.
  - apply Nat.ltb_ge in E. assert (rounds = S j) as Er by lia.
    rewrite Er in Hle.
    assert ((j * BATCH_SIZE + BATCH_SIZE <? length emailList) = false) as ->
      by (apply Nat.ltb_ge; lia).
    reflexivity.
Qed.

Lemma final_trace :
  trace (iterations' rounds) =
  flat_map (fun j => window_events' j
                       ++ (if S j <? rounds
                           then [sleep DELAY_BETWEEN_BATCHES] else []))
           (seq 0 rounds).
Proof.
  rewrite iterations_trace.
  apply flat_map_ext_in. intros j Hj. apply in_seq in Hj.
  rewrite window_pause_eq by lia. reflexivity.
Qed.

Lemma final_pauses :
  pauses (trace (iterations' rounds)) =
  repeat DELAY_BETWEEN_BATCHES (rounds - 1).
Proof.
  rewrite final_trace, pauses_flat_map.
  destruct rounds as [| q]; [reflexivity |].
  rewrite seq_S, flat_map_app. simpl.
  rewrite pauses_app, window_events_pauses, Nat.ltb_irrefl. simpl.
  rewrite app_nil_r, Nat.sub_0_r.
  rewrite flat_map_singletons with (d := DELAY_BETWEEN_BATCHES).
  - now rewrite length_seq.
  - intros j Hj. apply in_seq in Hj.
    rewrite pauses_app, window_events_pauses.
    assert ((S j <? S q) = true) as -> by (apply Nat.ltb_lt; lia).
    reflexivity.
Qed.

End Run.

(** ** Records and recipients *)

Lemma records_perm (calls : list (jsstring * call)) :
  Permutation
    (map email (successes_of calls) ++ map failed_email (failures_of calls))
    (map fst calls).
Proof.
  unfold successes_of, failures_of.
  induction calls as [| [e c] calls IH]; simpl.
  - constructor.
  - destruct (result c); simpl.
    + now apply perm_skip.
    + apply Permutation_sym, Permutation_cons_app, Permutation_sym, IH.
Qed.

Lemma NoDup_app_disjoint {A : Type} (a b : list A) (x : A) :
  NoDup (a ++ b) -> In x a -> ~ In x b.
Proof.
  induction a as [| y a IH]; simpl; intros H Ha Hb.
  - exact Ha.
  - inversion H as [| ? ? Hy Hnd]; subst.
    destruct Ha as [-> | Ha].
    + apply Hy, in_or_app. now right.
    + now apply IH.
Qed.

Lemma count_occ_one_app {A : Type} (dec : forall x y : A, {x = y} + {x <> y})
    (a b : list A) (x : A) :
  count_occ dec (a ++ b) x = 1 ->
  (In x a /\ ~ In x b) \/ (~ In x a /\ In x b).
Proof.
  rewrite count_occ_app. intro H.
  pose proof (count_occ_In dec a x) as Ha.
  pose proof (count_occ_In dec b x) as Hb.
  destruct (count_occ dec a x) as [| [| n]];
    destruct (count_occ dec b x) as [| [| n']]; simpl in H; try lia.
  - right. split; [rewrite Ha; lia | rewrite Hb; lia].
  - left. split; [rewrite Ha; lia | rewrite Hb; lia].
Qed.

Section Records.

Variable ses : SESClient.
Variable emailList : list jsstring.
Variables subject htmlContent textContent : option jsstring.

Local Abbreviation final :=
  (iterations ses emailList subject htmlContent textContent
     (rounds emailList)).

Lemma final_recipients :
  Permutation
    (map email (successful (results final))
       ++ map failed_email (failed (results final)))
    emailList.
Proof.
  eapply perm_trans.
  - apply Permutation_app; apply Permutation_map;
      [apply final_successful | apply final_failed].
  - eapply perm_trans; [apply records_perm |].
    unfold all_calls. rewrite batch_calls_emails. apply Permutation_refl.
Qed.

Lemma final_count :
  length (successful (results final)) + length (failed (results final)) =
  length emailList.
Proof.
  rewrite <- (Permutation_length final_recipients).
  now rewrite length_app, !length_map.
Qed.

Lemma recorded_failure pos e m :
  nth_error emailList pos = Some e ->
  result (sendEmail ses pos e subject htmlContent textContent) = Rejected m ->
  In {| failed_email := e; error := m |} (failed (results final)).
Proof.
  intros Hpos Hres.
  apply (Permutation_in _ (Permutation_sym (final_failed _ _ _ _ _))).
  unfold failures_of. apply in_flat_map.
  exists (e, sendEmail ses pos e subject htmlContent textContent). split.
  - apply batch_calls_In. exists pos. auto.
  - simpl. rewrite Hres. now left.
Qed.

Lemma recorded_success pos e id :
  nth_error emailList pos = Some e ->
  result (sendEmail ses pos e subject htmlContent textContent) = Fulfilled id ->
  In {| email := e; messageId := id |} (successful (results final)).
Proof.
  intros Hpos Hres.
  apply (Permutation_in _ (Permutation_sym (final_successful _ _ _ _ _))).
  unfold successes_of. apply in_flat_map.
  exists (e, sendEmail ses pos e subject htmlContent textContent). split.
  - apply batch_calls_In. exists pos. auto.
  - simpl. rewrite Hres. now left.
Qed.

(** A valid entry is recorded according to the answer of the service. *)
Lemma recorded_answer pos e :
  nth_error emailList pos = Some e -> isValidEmail e = true ->
  match send ses pos (params_for subject htmlContent textContent e) with
  | Fulfilled id =>
      In {| email := e; messageId := id |} (successful (results final))
  | Rejected m =>
      In {| failed_email := e; error := m |} (failed (results final))
  end.
Proof.
  intros Hpos Hv.
  pose proof (sendEmail_result ses subject htmlContent textContent pos e Hv) as E.
  destruct (send ses pos _) eqn:Es.
  - now apply recorded_success with (pos := pos).
  - now apply recorded_failure with (pos := pos).
Qed.

End Records.

(** ** main *)

Lemma console_map_quiet {A : Type} (f : A -> list jsstring) (l : list A) :
  sent (map (fun x => console_log (f x)) l) = [] /\
  pauses (map (fun x => console_log (f x)) l) = [].
Proof.
  induction l as [| x l [IH1 IH2]]; simpl; auto.
Qed.

Lemma main_empty ses argv :
  skipn 2 argv = [] ->
  main ses argv =
  Some {| output := [console_error [usage]]; status := 1; summary := None |}.
Proof. intro H. unfold main. now rewrite H. Qed.

Lemma filter_invalid_nil (l : list jsstring) :
  (forall e, In e l -> isValidEmail e = true) ->
  filter (fun e => negb (isValidEmail e)) l = [].
Proof.
  induction l as [| x l IH]; simpl; intro H.
  - reflexivity.
  - rewrite (H x) by now left. simpl. apply IH. intros e He. apply H. now right.
Qed.

Lemma main_invalid ses argv e :
  In e (skipn 2 argv) -> isValidEmail e = false ->
  main ses argv =
  Some {| output :=
            [console_error
               [js "Invalid email addresses found:";
                join (js ", ")
                  (filter (fun e => negb (isValidEmail e)) (skipn 2 argv))]];
          status := 1; summary := None |}.
Proof.
  intros Hin Hbad. unfold main.
  destruct (skipn 2 argv) as [| x l] eqn:El; [contradiction |].
  change (length (x :: l) =? 0) with false. cbv iota.
  assert (In e (filter (fun e => negb (isValidEmail e)) (x :: l))) as Hf
    by (apply filter_In; split; [exact Hin | now rewrite Hbad]).
  destruct (filter (fun e => negb (isValidEmail e)) (x :: l)) as [| y ys];
    [contradiction | reflexivity].
Qed.

Lemma main_valid ses argv :
  skipn 2 argv <> [] ->
  (forall e, In e (skipn 2 argv) -> isValidEmail e = true) ->
  exists st out,
    sendBatchEmails ses (skipn 2 argv) main_subject main_html main_text =
      Some (Returned st) /\
    st = iterations ses (skipn 2 argv) main_subject main_html main_text
           (rounds (skipn 2 argv)) /\
    main ses argv =
      Some {| output := out; status := 0; summary := Some (results st) |} /\
    sent out = sent (trace st) /\ pauses out = pauses (trace st).
Proof.
  intros Hne Hall. unfold main.
  fold main_subject main_html main_text.
  rewrite (filter_invalid_nil _ Hall).
  rewrite sendBatchEmails_returns.
  destruct (skipn 2 argv) as [| x l] eqn:El; [congruence |].
  change (length (x :: l) =? 0) with false. cbv iota.
  change (0 <? length (@nil jsstring)) with false. cbv iota.
  eexists. eexists. split; [reflexivity |]. split; [reflexivity |].
  split; [reflexivity |].
  match goal with
  | |- context [map ?g (failed ?r)] =>
      destruct (console_map_quiet
                  (fun f => [failed_email f ++ js ": " ++ error f]) (failed r))
        as [Q1 Q2]
  end.
  split.
  - unfold sent in *. cbn [flat_map]. rewrite app_nil_l, !flat_map_app.
    destruct (0 <? _); cbn [flat_map app]; rewrite ?Q1; now rewrite !app_nil_r.
  - unfold pauses in *. cbn [flat_map]. rewrite app_nil_l, !flat_map_app.
    destruct (0 <? _); cbn [flat_map app]; rewrite ?Q2; now rewrite !app_nil_r.
Qed.

(** ** Properties of the run *)

(** C1.  When the recipient list holds a malformed address (one that
    [isValidEmail] rejects, which includes every string that has not the
    shape local part, ["@"], domain part without whitespace), the run ends
    in [main] before the batch loop is entered: the only output is the list
    of invalid addresses on the error console, nothing is sent to the mail
    service, the exit status is 1 and no result is produced. *)
Theorem malformed_address_aborts_run ses argv e :
  In e (skipn 2 argv) ->
  isValidEmail e = false \/ ~ address_shape e ->
  exists r,
    main ses argv = Some r /\
    status r = 1 /\
    summary r = None /\
    sent (output r) = [] /\
    output r =
      [console_error
         [js "Invalid email addresses found:";
          join (js ", ")
            (filter (fun a => negb (isValidEmail a)) (skipn 2 argv))]].
Proof.
  intros Hin Hbad.
  assert (isValidEmail e = false) as Hrej.
  { destruct Hbad as [H | H]; [exact H |].
    destruct (isValidEmail e) eqn:E; [| reflexivity].
    exfalso. now apply H, isValidEmail_shape. }
  rewrite (main_invalid ses argv e Hin Hrej).
  eexists. split; [reflexivity |]. simpl. auto.
Qed.

Lemma malformed_address_aborts_run_witness :
  exists r,
    main example_ses (example_argv ["a@b.c"; "no at sign"; "c@d.e"]%string) = Some r /\
    status r = 1 /\
    summary r = None /\
    sent (output r) = [] /\
    output r =
      [console_error
         [js "Invalid email addresses found:";
          join (js ", ")
            (filter (fun a => negb (isValidEmail a))
               (skipn 2 (example_argv ["a@b.c"; "no at sign"; "c@d.e"]%string)))]].
Proof.
  apply (@malformed_address_aborts_run example_ses
           (example_argv ["a@b.c"; "no at sign"; "c@d.e"]%string) (js "no at sign")).
  - simpl. right. left. reflexivity.
  - left. reflexivity.
Defined.

(** C8.  With no recipient on the command line the run ends at once: the
    usage message goes to the error console, the exit status is 1, and the
    mail service is not contacted. *)
Theorem no_recipients_is_usage_error ses argv :
  skipn 2 argv = [] ->
  exists r,
    main ses argv = Some r /\
    output r = [console_error [usage]] /\
    status r = 1 /\
    sent (output r) = [] /\
    summary r = None.
Proof.
  intro H. rewrite (main_empty ses argv H).
  eexists. split; [reflexivity |]. simpl. auto.
Qed.

Lemma no_recipients_is_usage_error_witness :
  exists r,
    main example_ses (example_argv []) = Some r /\
    output r = [console_error [usage]] /\
    status r = 1 /\
    sent (output r) = [] /\
    summary r = None.
Proof.
  apply (@no_recipients_is_usage_error example_ses (example_argv [])).
  reflexivity.
Defined.

Lemma main_is_main_with ses argv :
  main ses argv =
  main_with
    (fun l => sendBatchEmails ses l
                (Some (js "Test Email"))
                (Some (js "<html><body><p>This is a test email from AWS SES!</p></body></html>"))
                (Some (js "This is a test email from AWS SES.")))
    argv.
Proof. reflexivity. Qed.

Lemma some_rejected (l : list jsstring) :
  forallb isValidEmail l = false ->
  exists e, In e l /\ isValidEmail e = false.
Proof.
  induction l as [| y ys IH]; [discriminate |]. simpl.
  destruct (isValidEmail y) eqn:Ey; intro H.
  - destruct (IH H) as (e & He & Hbad). exists e. split; [now right | exact Hbad].
  - exists y. split; [now left | exact Ey].
Qed.

(** The exit status of [main_with], whatever the awaited call does. *)
Lemma main_with_status dispatch argv c :
  dispatch (skipn 2 argv) = Some c ->
  exists r,
    main_with dispatch argv = Some r /\
    (status r <> 0 <->
       skipn 2 argv = [] \/
       (exists e, In e (skipn 2 argv) /\ isValidEmail e = false) \/
       (exists m st, c = Threw m st)).
Proof.
  intro Hc. unfold main_with.
  destruct (skipn 2 argv) as [| x l] eqn:El.
  - eexists. split; [reflexivity |]. cbn [status].
    split; [auto | discriminate].
  - change (length (x :: l) =? 0) with false. cbv iota.
    destruct (forallb isValidEmail (x :: l)) eqn:Ev.
    + assert (forall e, In e (x :: l) -> isValidEmail e = true) as Hall
        by now apply forallb_forall.
      rewrite (filter_invalid_nil _ Hall), Hc.
      change (0 <? length (@nil jsstring)) with false. cbv iota.
      destruct c as [st | m st]; eexists; (split; [reflexivity |]);
        cbn [status]; split; try congruence; try discriminate.
      * intros [H | [(e & He & Hbad) | (m & st' & H)]]; try discriminate.
        rewrite (Hall e He) in Hbad. discriminate.
      * intros _. right. right. eauto.
    + destruct (some_rejected _ Ev) as (e & He & Hbad).
      assert (In e (filter (fun e => negb (isValidEmail e)) (x :: l))) as Hf
        by (apply filter_In; split; [exact He | now rewrite Hbad]).
      destruct (filter (fun e => negb (isValidEmail e)) (x :: l)) as [| y ys];
        [contradiction |].
      change (0 <? length (y :: ys)) with true. cbv iota.
      eexists. split; [reflexivity |]. cbn [status].
      split; [| discriminate]. intros _. right. left. eauto.
Qed.

(** C7, the claim as written fails: ["a@b"] is well formed in the sense of
    the data model (a non-empty local part, ["@"], a non-empty domain part,
    no whitespace), the run meets no fault, and [main] exits with status 1
    because [isValidEmail] rejects the address. *)
Lemma well_formed_recipient_exits_1 :
  skipn 2 (example_argv ["a@b"]%string) <> [] /\
  (forall e, In e (skipn 2 (example_argv ["a@b"]%string)) -> address_shape e) /\
  (exists st,
     sendBatchEmails example_ses (skipn 2 (example_argv ["a@b"]%string))
       main_subject main_html main_text = Some (Returned st)) /\
  exists r,
    main example_ses (example_argv ["a@b"]%string) = Some r /\ status r = 1.
Proof.
  split; [discriminate |]. split.
  - simpl. intros e [<- | []]. exists (js "a"), (js "b").
    repeat split; try reflexivity; discriminate.
  - split; eexists; [| split]; reflexivity.
Qed.

(** C7, amended.  The process exits with a non-zero status exactly when
    there is no recipient, or at least one recipient is rejected by
    [isValidEmail], or the call awaited in the [try] block of [main] ends
    by throwing, which the [catch] of [main] turns into status 1.  The call
    [main] awaits is [sendBatchEmails], which never throws: so [main]
    exits with a non-zero status exactly when one of its two checks fails,
    and every run that passes them exits with status 0 whatever the mail
    service answered. *)
Theorem exit_status_of_main ses argv :
  (forall dispatch c,
     dispatch (skipn 2 argv) = Some c ->
     exists r,
       main_with dispatch argv = Some r /\
       (status r <> 0 <->
          skipn 2 argv = [] \/
          (exists e, In e (skipn 2 argv) /\ isValidEmail e = false) \/
          (exists m st, c = Threw m st))) /\
  main ses argv =
    main_with
      (fun l => sendBatchEmails ses l main_subject main_html main_text) argv /\
  (exists st,
     sendBatchEmails ses (skipn 2 argv) main_subject main_html main_text
     = Some (Returned st)) /\
  exists r,
    main ses argv = Some r /\
    (status r <> 0 <->
       skipn 2 argv = [] \/
       (exists e, In e (skipn 2 argv) /\ isValidEmail e = false)) /\
    (skipn 2 argv <> [] ->
     (forall e, In e (skipn 2 argv) -> isValidEmail e = true) ->
     status r = 0 /\
     exists res, summary r = Some res /\
       length (successful res) + length (failed res) = length (skipn 2 argv)).
Proof.
  split; [intros dispatch c; apply main_with_status |].
  split; [apply main_is_main_with |].
  split; [eexists; apply sendBatchEmails_returns |].
  destruct (main_with_status
              (fun l => sendBatchEmails ses l main_subject main_html main_text)
              argv (sendBatchEmails_returns ses (skipn 2 argv) _ _ _))
    as (r & Hr & Hs).
  exists r. split; [exact Hr |]. split.
  - rewrite Hs. split.
    + intros [H | [H | (m & st & H)]]; auto. discriminate.
    + intros [H | H]; auto.
  - intros Hne Hall.
    destruct (main_valid ses argv Hne Hall) as (st & out & _ & Hst & Hmain & _).
    change (main ses argv = Some r) in Hr. rewrite Hmain in Hr.
    injection Hr as <-. cbn [status summary]. split; [reflexivity |].
    exists (results st). split; [reflexivity |]. rewrite Hst. apply final_count.
Qed.

(** ** Properties of [sendBatchEmails] *)

Lemma last_map_seq {A : Type} (f : nat -> A) (q : nat) (d : A) :
  last (map f (seq 0 (S q))) d = f q.
Proof. rewrite seq_S, map_app. simpl. apply last_last. Qed.

Lemma last_window_length n w k :
  0 < w -> 0 < n -> n <= k * w -> (k - 1) * w < n ->
  Nat.min w (n - (k - 1) * w) = if n mod w =? 0 then w else n mod w.
Proof.
  intros Hw Hn Hle Hgt.
  pose proof (Nat.div_mod_eq n w) as E.
  pose proof (Nat.mod_upper_bound n w ltac:(lia)) as U.
  destruct k as [| q]; [simpl in Hle; lia |].
  replace (S q - 1) with q in * by lia.
  destruct (n mod w =? 0) eqn:Em.
  - apply Nat.eqb_eq in Em. rewrite Em, Nat.add_0_r in E.
    assert (n / w = S q) as Eq by nia. nia.
  - apply Nat.eqb_neq in Em.
    assert (n / w = q) as Eq by nia. nia.
Qed.

(** 120 recipients: batches of 50, 50 and 20 addresses and two pauses of
    1000 ms. *)
Example run_of_120_recipients :
  match
    sendBatchEmails example_ses (repeat (js "user@example.com") 120)
      None None None
  with
  | Some (Returned st) =>
      map (@length _) (batches st) = [50; 50; 20] /\
      pauses (trace st) = [1000; 1000] /\
      length (sent (trace st)) = 120 /\
      length (successful (results st)) = 60 /\
      length (failed (results st)) = 60
  | _ => False
  end.
Proof. vm_compute. repeat split. Qed.

(** C2.  The loop cuts [emailList] (of length N) into ceil(N / BATCH_SIZE)
    batches; the [j]-th one is [emailList.slice(j * BATCH_SIZE,
    j * BATCH_SIZE + BATCH_SIZE)], so the batches taken in order give back
    [emailList]; every batch but the last holds [BATCH_SIZE] addresses and
    the last one holds N mod BATCH_SIZE of them, or [BATCH_SIZE] when that
    is 0. *)
Theorem batches_partition_emailList ses emailList subject htmlContent textContent :
  exists st,
    sendBatchEmails ses emailList subject htmlContent textContent
      = Some (Returned st) /\
    length (batches st) = ceil_div (length emailList) BATCH_SIZE /\
    concat (batches st) = emailList /\
    (forall j, j < length (batches st) ->
       nth j (batches st) [] =
       slice (j * BATCH_SIZE) (j * BATCH_SIZE + BATCH_SIZE) emailList) /\
    (forall j, S j < length (batches st) ->
       length (nth j (batches st) []) = BATCH_SIZE) /\
    (emailList <> [] ->
       length (last (batches st) []) =
       if length emailList mod BATCH_SIZE =? 0 then BATCH_SIZE
       else length emailList mod BATCH_SIZE).
Proof.
  rewrite sendBatchEmails_returns. eexists. split; [reflexivity |].
  rewrite final_batches, length_map, length_seq.
  destruct (ceil_div_bounds (length emailList) BATCH_SIZE_pos) as [Hle Hgt].
  fold (rounds emailList) in *.
  split; [reflexivity |]. split.
  { rewrite windows_concat. apply rounds_cover. }
  split.
  { intros j Hj. now rewrite nth_map_seq. }
  split.
  - intros j Hj. rewrite nth_map_seq by lia. unfold window.
    rewrite slice_length.
    assert (S j * BATCH_SIZE <= (rounds emailList - 1) * BATCH_SIZE)
      by (apply Nat.mul_le_mono_r; lia).
    destruct Hgt as [Hgt | Hgt]; lia.
  - intro Hne.
    assert (0 < length emailList) as Hn by (destruct emailList; simpl; [congruence | lia]).
    destruct Hgt as [Hgt | Hgt]; [rewrite Hgt in Hle; simpl in Hle; lia |].
    destruct (rounds emailList) as [| q] eqn:Eq; [simpl in Hle; lia |].
    rewrite last_map_seq. unfold window. rewrite slice_length.
    rewrite <- (@last_window_length _ _ (S q) BATCH_SIZE_pos Hn Hle Hgt).
    now replace (S q - 1) with q by lia.
Qed.

(** C5.  The run is its batches in order, with one pause of
    [DELAY_BETWEEN_BATCHES] after everything a batch does (its calls and
    their settlements) and before anything of the next batch, for every
    batch but the last; nothing follows the last batch and no batch pauses
    inside.  So a run of K batches pauses K - 1 times, which is
    N / BATCH_SIZE - 1 when N is a positive multiple of [BATCH_SIZE]. *)
Theorem pause_between_batches ses emailList subject htmlContent textContent :
  exists st,
    sendBatchEmails ses emailList subject htmlContent textContent
      = Some (Returned st) /\
    trace st =
      flat_map
        (fun j =>
           window_events ses emailList subject htmlContent textContent j
             ++ (if S j <? ceil_div (length emailList) BATCH_SIZE
                 then [sleep DELAY_BETWEEN_BATCHES] else []))
        (seq 0 (ceil_div (length emailList) BATCH_SIZE)) /\
    (forall j,
       pauses (window_events ses emailList subject htmlContent textContent j)
       = []) /\
    pauses (trace st) =
      repeat DELAY_BETWEEN_BATCHES
        (ceil_div (length emailList) BATCH_SIZE - 1) /\
    (emailList <> [] -> length emailList mod BATCH_SIZE = 0 ->
     length (pauses (trace st)) = length emailList / BATCH_SIZE - 1).
Proof.
  rewrite sendBatchEmails_returns. eexists. split; [reflexivity |].
  split; [apply final_trace |].
  split; [intro j; apply window_events_pauses |].
  split; [apply final_pauses |].
  intros Hne Hmod. rewrite final_pauses, repeat_length. unfold rounds.
  destruct (ceil_div_bounds (length emailList) BATCH_SIZE_pos) as [Hle Hgt].
  pose proof (Nat.div_mod_eq (length emailList) BATCH_SIZE) as E.
  rewrite Hmod, Nat.add_0_r in E.
  assert (0 < length emailList) as Hn by (destruct emailList; simpl; [congruence | lia]).
  pose proof BATCH_SIZE_pos.
  destruct Hgt as [Hgt | Hgt]; [rewrite Hgt in Hle; simpl in Hle; lia |].
  f_equal. nia.
Qed.

(** C3.  When the mail service rejects the call made for a recipient, the
    run still returns (it does not throw), the recipient is in [failed]
    with the message of the rejection, the calls made are those for all the
    valid addresses of the list, in order, whatever the service answered,
    and every other valid recipient is recorded according to the answer to
    its own call. *)
Theorem send_failure_is_recorded
    ses emailList subject htmlContent textContent pos e m :
  nth_error emailList pos = Some e ->
  isValidEmail e = true ->
  send ses pos (params_for subject htmlContent textContent e) = Rejected m ->
  exists st,
    sendBatchEmails ses emailList subject htmlContent textContent
      = Some (Returned st) /\
    In {| failed_email := e; error := m |} (failed (results st)) /\
    sent (trace st) =
      map (params_for subject htmlContent textContent)
          (filter isValidEmail emailList) /\
    (forall pos' e',
       nth_error emailList pos' = Some e' -> isValidEmail e' = true ->
       match send ses pos' (params_for subject htmlContent textContent e') with
       | Fulfilled id =>
           In {| email := e'; messageId := id |} (successful (results st))
       | Rejected m' =>
           In {| failed_email := e'; error := m' |} (failed (results st))
       end).
Proof.
  intros Hpos Hv Hrej.
  rewrite sendBatchEmails_returns. eexists. split; [reflexivity |].
  split.
  - apply recorded_failure with (pos := pos); [exact Hpos |].
    now rewrite sendEmail_result.
  - split; [apply final_sent |].
    intros pos' e'. apply recorded_answer.
Qed.

Lemma send_failure_is_recorded_witness :
  exists st,
    sendBatchEmails example_ses (map js ["a@b.c"; "c@d.e"; "f@g.h"]%string)
      None None None = Some (Returned st) /\
    In {| failed_email := js "c@d.e"; error := js "Throttling" |}
       (failed (results st)) /\
    sent (trace st) =
      map (params_for None None None)
          (filter isValidEmail (map js ["a@b.c"; "c@d.e"; "f@g.h"]%string)) /\
    (forall pos' e',
       nth_error (map js ["a@b.c"; "c@d.e"; "f@g.h"]%string) pos' = Some e' ->
       isValidEmail e' = true ->
       match send example_ses pos' (params_for None None None e') with
       | Fulfilled id =>
           In {| email := e'; messageId := id |} (successful (results st))
       | Rejected m' =>
           In {| failed_email := e'; error := m' |} (failed (results st))
       end).
Proof.
  apply (@send_failure_is_recorded example_ses
           (map js ["a@b.c"; "c@d.e"; "f@g.h"]%string) None None None
           1 (js "c@d.e") (js "Throttling")); reflexivity.
Defined.

(** C9.  Called on a list that holds an address [isValidEmail] rejects,
    [sendBatchEmails] returns (it does not throw): that address is in
    [failed] with the message ["Invalid email address: "] followed by the
    address, no call to the mail service is made for it, the calls made are
    those for the valid addresses of the list, and each of these is
    recorded according to the answer to its call. *)
Theorem sendBatchEmails_records_invalid_address
    ses emailList subject htmlContent textContent e :
  In e emailList ->
  isValidEmail e = false ->
  exists st,
    sendBatchEmails ses emailList subject htmlContent textContent
      = Some (Returned st) /\
    In {| failed_email := e; error := js "Invalid email address: " ++ e |}
       (failed (results st)) /\
    (forall p, In p (sent (trace st)) -> ToAddresses p <> [e]) /\
    sent (trace st) =
      map (params_for subject htmlContent textContent)
          (filter isValidEmail emailList) /\
    (forall pos' e',
       nth_error emailList pos' = Some e' -> isValidEmail e' = true ->
       match send ses pos' (params_for subject htmlContent textContent e') with
       | Fulfilled id =>
           In {| email := e'; messageId := id |} (successful (results st))
       | Rejected m' =>
           In {| failed_email := e'; error := m' |} (failed (results st))
       end).
Proof.
  intros Hin Hbad.
  rewrite sendBatchEmails_returns. eexists. split; [reflexivity |].
  split.
  - apply In_nth_error in Hin as [pos Hpos].
    apply recorded_failure with (pos := pos); [exact Hpos |].
    now rewrite sendEmail_invalid.
  - split.
    + intros p Hp Hto. rewrite final_sent in Hp.
      apply in_map_iff in Hp as (e' & <- & He').
      apply filter_In in He' as [_ He']. simpl in Hto.
      injection Hto as ->. congruence.
    + split; [apply final_sent |].
      intros pos' e'. apply recorded_answer.
Qed.

Lemma sendBatchEmails_records_invalid_address_witness :
  exists st,
    sendBatchEmails example_ses (map js ["a@b.c"; "a@b"; "f@g.h"]%string)
      None None None = Some (Returned st) /\
    In {| failed_email := js "a@b";
          error := js "Invalid email address: " ++ js "a@b" |}
       (failed (results st)) /\
    (forall p, In p (sent (trace st)) -> ToAddresses p <> [js "a@b"]) /\
    sent (trace st) =
      map (params_for None None None)
          (filter isValidEmail (map js ["a@b.c"; "a@b"; "f@g.h"]%string)) /\
    (forall pos' e',
       nth_error (map js ["a@b.c"; "a@b"; "f@g.h"]%string) pos' = Some e' ->
       isValidEmail e' = true ->
       match send example_ses pos' (params_for None None None e') with
       | Fulfilled id =>
           In {| email := e'; messageId := id |} (successful (results st))
       | Rejected m' =>
           In {| failed_email := e'; error := m' |} (failed (results st))
       end).
Proof.
  apply (@sendBatchEmails_records_invalid_address example_ses
           (map js ["a@b.c"; "a@b"; "f@g.h"]%string) None None None (js "a@b")).
  - simpl. right. left. reflexivity.
  - reflexivity.
Defined.

(** C4, the claim as written fails: with the same address listed twice, a
    run that passes the two checks of [main] can record it once as a
    success and once as a failure, so the address is in both sequences. *)
Lemma repeated_address_in_both_sequences :
  exists r res,
    main example_ses (example_argv ["a@b.c"; "a@b.c"]%string) = Some r /\
    forallb isValidEmail (skipn 2 (example_argv ["a@b.c"; "a@b.c"]%string))
      = true /\
    summary r = Some res /\
    In (js "a@b.c") (map email (successful res)) /\
    In (js "a@b.c") (map failed_email (failed res)).
Proof.
  eexists. eexists. split; [vm_compute; reflexivity |].
  split; [reflexivity |]. split; [reflexivity |].
  split; vm_compute; auto.
Qed.

(** C4, amended.  A run that passes the two checks of [main] returns a
    result in which the number of successes plus the number of failures is
    the number N of recipients, and every entry of the recipient list is
    recorded exactly once: the addresses of the successes followed by
    those of the failures are the recipient list up to order.  An address
    listed once is in exactly one of the two sequences. *)
Theorem every_recipient_recorded_once ses argv :
  skipn 2 argv <> [] ->
  (forall e, In e (skipn 2 argv) -> isValidEmail e = true) ->
  exists r res,
    main ses argv = Some r /\
    summary r = Some res /\
    length (successful res) + length (failed res) = length (skipn 2 argv) /\
    Permutation
      (map email (successful res) ++ map failed_email (failed res))
      (skipn 2 argv) /\
    (forall e,
       count_occ (list_eq_dec N.eq_dec) (skipn 2 argv) e = 1 ->
       (In e (map email (successful res)) /\
        ~ In e (map failed_email (failed res))) \/
       (~ In e (map email (successful res)) /\
        In e (map failed_email (failed res)))).
Proof.
  intros Hne Hall.
  destruct (main_valid ses argv Hne Hall) as (st & out & _ & Hst & Hmain & _).
  rewrite Hmain. eexists. exists (results st). split; [reflexivity |].
  split; [reflexivity |]. subst st.
  split; [apply final_count |].
  pose proof (final_recipients ses (skipn 2 argv)
                main_subject main_html main_text) as P.
  split; [exact P |].
  intros e He. apply (count_occ_one_app (list_eq_dec N.eq_dec)).
  etransitivity; [| exact He].
  apply (proj1 (Permutation_count_occ (list_eq_dec N.eq_dec) _ _) P e).
Qed.

Lemma every_recipient_recorded_once_witness :
  exists r res,
    main example_ses (example_argv ["a@b.c"; "c@d.e"; "f@g.h"]%string) = Some r /\
    summary r = Some res /\
    length (successful res) + length (failed res) = 3 /\
    Permutation
      (map email (successful res) ++ map failed_email (failed res))
      (map js ["a@b.c"; "c@d.e"; "f@g.h"]%string) /\
    (forall e,
       count_occ (list_eq_dec N.eq_dec)
         (map js ["a@b.c"; "c@d.e"; "f@g.h"]%string) e = 1 ->
       (In e (map email (successful res)) /\
        ~ In e (map failed_email (failed res))) \/
       (~ In e (map email (successful res)) /\
        In e (map failed_email (failed res)))).
Proof.
  apply (@every_recipient_recorded_once example_ses
           (example_argv ["a@b.c"; "c@d.e"; "f@g.h"]%string)).
  - discriminate.
  - simpl. intros e [<- | [<- | [<- | []]]]; reflexivity.
Defined.

(** ** Further properties of the run *)

Lemma batch_calls_issued ses subject htmlContent textContent
    (l : list jsstring) : forall i,
  flat_map (fun ec => issued (snd ec))
    (batch_calls ses subject htmlContent textContent i l) =
  map ses_send
    (map (params_for subject htmlContent textContent) (filter isValidEmail l)).
Proof.
  unfold batch_calls. induction l as [| x l IH]; intro i; simpl.
  - reflexivity.
  - rewrite IH, sendEmail_issued. now destruct (isValidEmail x).
Qed.

Lemma filter_length_le {A : Type} (f : A -> bool) (l : list A) :
  length (filter f l) <= length l.
Proof.
  induction l as [| x l IH]; simpl; [lia |].
  destruct (f x); simpl; lia.
Qed.

(** X1.  A run is a sequence of rounds, one per batch: first the calls to
    the mail service for the valid addresses of the batch, in input order
    and at most [BATCH_SIZE] of them, then the handling of their answers,
    during which nothing is sent, then the pause when another batch
    follows.  So at most [BATCH_SIZE] messages are handed to the service
    between two pauses. *)
Theorem at_most_BATCH_SIZE_sends_between_pauses
    ses emailList subject htmlContent textContent :
  exists st answers,
    sendBatchEmails ses emailList subject htmlContent textContent
      = Some (Returned st) /\
    trace st =
      flat_map
        (fun j =>
           map ses_send
             (map (params_for subject htmlContent textContent)
                (filter isValidEmail (window emailList j)))
           ++ answers j
           ++ (if S j <? ceil_div (length emailList) BATCH_SIZE
               then [sleep DELAY_BETWEEN_BATCHES] else []))
        (seq 0 (ceil_div (length emailList) BATCH_SIZE)) /\
    (forall j,
       length (filter isValidEmail (window emailList j)) <= BATCH_SIZE /\
       sent (answers j) = [] /\ pauses (answers j) = []).
Proof.
  rewrite sendBatchEmails_returns. eexists.
  exists (fun j =>
            flat_map (fun ec => printed (snd ec))
              (settle_order
                 (window_calls ses emailList subject htmlContent textContent j))).
  split; [reflexivity |]. split.
  - rewrite final_trace. apply flat_map_ext. intro j.
    unfold window_events, window_calls at 1.
    now rewrite batch_calls_issued, <- app_assoc.
  - intro j. split.
    + eapply Nat.le_trans; [apply filter_length_le |].
      unfold window. rewrite slice_length. lia.
    + rewrite sent_flat_map, pauses_flat_map. split; apply flat_map_nil;
        intros ec H; now apply window_calls_quiet in H.
Qed.

(** X2.  A run of [main] that passes its two checks hands the mail service
    exactly one message per recipient, in the order of the command line,
    each built from the texts [main] passes, and pauses
    ceil(N / BATCH_SIZE) - 1 times for [DELAY_BETWEEN_BATCHES]. *)
Theorem main_sends_one_message_per_recipient ses argv :
  skipn 2 argv <> [] ->
  (forall e, In e (skipn 2 argv) -> isValidEmail e = true) ->
  exists r,
    main ses argv = Some r /\
    sent (output r) =
      map (params_for main_subject main_html main_text) (skipn 2 argv) /\
    pauses (output r) =
      repeat DELAY_BETWEEN_BATCHES
        (ceil_div (length (skipn 2 argv)) BATCH_SIZE - 1).
Proof.
  intros Hne Hall.
  destruct (main_valid ses argv Hne Hall)
    as (st & out & _ & Hst & Hmain & Hsent & Hpauses).
  rewrite Hmain. eexists. split; [reflexivity |]. simpl output.
  rewrite Hsent, Hpauses, Hst, final_sent, final_pauses.
  split; [| reflexivity]. f_equal.
  clear -Hall. induction (skipn 2 argv) as [| x l IH]; simpl.
  - reflexivity.
  - rewrite (Hall x) by now left. f_equal. apply IH.
    intros e He. apply Hall. now right.
Qed.

Lemma main_sends_one_message_per_recipient_witness :
  exists r,
    main example_ses (example_argv ["a@b.c"; "c@d.e"; "a@b.c"]%string) = Some r /\
    sent (output r) =
      map (params_for main_subject main_html main_text)
          (map js ["a@b.c"; "c@d.e"; "a@b.c"]%string) /\
    pauses (output r) = repeat DELAY_BETWEEN_BATCHES (ceil_div 3 BATCH_SIZE - 1).
Proof.
  apply (@main_sends_one_message_per_recipient example_ses
           (example_argv ["a@b.c"; "c@d.e"; "a@b.c"]%string)).
  - discriminate.
  - simpl. intros e [<- | [<- | [<- | []]]]; reflexivity.
Defined.

(** X3.  A list of at most [BATCH_SIZE] addresses is sent as one batch,
    the list itself, and the run does not pause. *)
Theorem short_list_is_one_batch_without_pause
    ses emailList subject htmlContent textContent :
  emailList <> [] ->
  length emailList <= BATCH_SIZE ->
  exists st,
    sendBatchEmails ses emailList subject htmlContent textContent
      = Some (Returned st) /\
    batches st = [emailList] /\
    pauses (trace st) = [].
Proof.
  intros Hne Hle.
  assert (rounds emailList = 1) as E.
  { symmetry. apply ceil_div_unique; [apply BATCH_SIZE_pos | lia |].
    right. destruct emailList; simpl; [congruence | lia]. }
  rewrite sendBatchEmails_returns. eexists. split; [reflexivity |].
  rewrite final_batches, final_pauses, E. split; [| reflexivity].
  change (seq 0 1) with [0]. cbn [map]. unfold window, slice.
  change (0 * BATCH_SIZE) with 0. rewrite Nat.add_0_l, Nat.sub_0_r.
  cbn [skipn]. now rewrite firstn_all2.
Qed.

Lemma short_list_is_one_batch_without_pause_witness :
  exists st,
    sendBatchEmails example_ses (map js ["a@b.c"; "not an address"]%string)
      None None None = Some (Returned st) /\
    batches st = [map js ["a@b.c"; "not an address"]%string] /\
    pauses (trace st) = [].
Proof.
  apply (@short_list_is_one_batch_without_pause example_ses
           (map js ["a@b.c"; "not an address"]%string) None None None).
  - discriminate.
  - unfold BATCH_SIZE. simpl. lia.
Defined.

(** ** The order of the records *)

Lemma seq_two_elements (a b k : nat) :
  a < b -> b < k ->
  seq 0 k = seq 0 a ++ a :: seq (S a) (b - S a) ++ b :: seq (S b) (k - S b).
Proof.
  intros Hab Hbk.
  replace k with (a + (S (b - S a) + S (k - S b))) at 1 by lia.
  rewrite seq_app. f_equal. simpl. f_equal.
  rewrite seq_app. f_equal.
  replace (S a + (b - S a)) with b by lia. reflexivity.
Qed.

Lemma successes_of_app l1 l2 :
  successes_of (l1 ++ l2) = successes_of l1 ++ successes_of l2.
Proof. apply flat_map_app. Qed.

Lemma successes_of_cons x l :
  successes_of (x :: l) = successes_of [x] ++ successes_of l.
Proof. apply (successes_of_app [x] l). Qed.

Lemma insert_call_successes x l :
  (forall y id, In y l -> result (snd y) = Fulfilled id ->
     settles (snd x) <= settles (snd y)) ->
  successes_of (insert_call x l) = successes_of (x :: l).
Proof.
  induction l as [| y l IH]; intro H; cbn [insert_call].
  - reflexivity.
  - destruct (settles (snd x) <=? settles (snd y)) eqn:E; [reflexivity |].
    apply Nat.leb_gt in E.
    rewrite (successes_of_cons y), IH by (intros z id Hz; apply H; now right).
    rewrite (successes_of_cons x (y :: l)), (successes_of_cons y l),
      (successes_of_cons x l).
    assert (successes_of [y] = []) as ->; [| reflexivity].
    unfold successes_of. simpl. destruct (result (snd y)) eqn:Ey; [| reflexivity].
    specialize (H y j (or_introl eq_refl) Ey). lia.
Qed.

Section Order.

Variable ses : SESClient.
Variable emailList : list jsstring.
Variables subject htmlContent textContent : option jsstring.

Local Abbreviation params_for :=
  (Ses.params_for subject htmlContent textContent).
Local Abbreviation sendEmail' pos e :=
  (sendEmail ses pos e subject htmlContent textContent).
Local Abbreviation batch_calls' :=
  (batch_calls ses subject htmlContent textContent).
Local Abbreviation window_calls' :=
  (window_calls ses emailList subject htmlContent textContent).
Local Abbreviation final :=
  (iterations ses emailList subject htmlContent textContent
     (rounds emailList)).

Lemma sendEmail_settles pos e :
  settles (sendEmail' pos e) =
  if isValidEmail e then S (arrival ses pos) else 0.
Proof.
  unfold sendEmail. destruct (isValidEmail e); simpl; [| reflexivity].
  now destruct (send ses pos _).
Qed.

Lemma sendEmail_fulfilled_valid pos e id :
  result (sendEmail' pos e) = Fulfilled id -> isValidEmail e = true.
Proof.
  destruct (isValidEmail e) eqn:E; [reflexivity |].
  rewrite sendEmail_invalid by exact E. discriminate.
Qed.

(** The calls of the batch that holds position [p]. *)
Lemma window_calls_member p e :
  nth_error emailList p = Some e ->
  In (e, sendEmail' p e) (window_calls' (p / BATCH_SIZE)).
Proof.
  intro Hp. unfold window_calls. apply batch_calls_In.
  exists (p mod BATCH_SIZE).
  pose proof BATCH_SIZE_pos as HB.
  pose proof (Nat.div_mod_eq p BATCH_SIZE) as E.
  pose proof (Nat.mod_upper_bound p BATCH_SIZE ltac:(lia)) as U.
  assert (p / BATCH_SIZE * BATCH_SIZE + p mod BATCH_SIZE = p) as Ep by lia.
  rewrite Ep. split; [| reflexivity].
  unfold window, slice. rewrite nth_error_firstn.
  replace (p / BATCH_SIZE * BATCH_SIZE + BATCH_SIZE - p / BATCH_SIZE * BATCH_SIZE)
    with BATCH_SIZE by lia.
  apply Nat.ltb_lt in U. rewrite U.
  now rewrite nth_error_skipn, Ep.
Qed.

Lemma window_success_member p e id :
  nth_error emailList p = Some e ->
  result (sendEmail' p e) = Fulfilled id ->
  In {| email := e; messageId := id |}
     (successes_of (settle_order (window_calls' (p / BATCH_SIZE)))).
Proof.
  intros Hp Hres. unfold successes_of. apply in_flat_map.
  exists (e, sendEmail' p e). split.
  - apply (Permutation_in _ (Permutation_sym (settle_order_perm _))).
    now apply window_calls_member.
  - simpl. rewrite Hres. now left.
Qed.

Lemma position_round p e :
  nth_error emailList p = Some e -> p / BATCH_SIZE < rounds emailList.
Proof.
  intro Hp.
  assert (p < length emailList) as Hlt by (apply nth_error_Some; congruence).
  destruct (ceil_div_bounds (length emailList) BATCH_SIZE_pos) as [Hle _].
  fold (rounds emailList) in Hle.
  pose proof BATCH_SIZE_pos as HB.
  pose proof (Nat.div_mod_eq p BATCH_SIZE) as E.
  nia.
Qed.

(** X4.  The records keep the order of the batches: when two recipients
    of different batches are both accepted by the mail service, the record
    of the one in the earlier batch comes first in [successful], whenever
    the answers arrived. *)
Theorem earlier_batch_is_recorded_first p q ep eq idp idq :
  nth_error emailList p = Some ep ->
  nth_error emailList q = Some eq ->
  isValidEmail ep = true ->
  isValidEmail eq = true ->
  send ses p (params_for ep) = Fulfilled idp ->
  send ses q (params_for eq) = Fulfilled idq ->
  p / BATCH_SIZE < q / BATCH_SIZE ->
  exists st l1 l2 l3,
    sendBatchEmails ses emailList subject htmlContent textContent
      = Some (Returned st) /\
    successful (results st) =
      l1 ++ {| email := ep; messageId := idp |}
         :: l2 ++ {| email := eq; messageId := idq |} :: l3.
Proof.
  intros Hp Hq Vp Vq Sp Sq Hlt.
  rewrite sendBatchEmails_returns. exists final.
  rewrite iterations_successful.
  rewrite (seq_two_elements Hlt (position_round q Hq)).
  rewrite flat_map_app. cbn [flat_map]. rewrite flat_map_app. cbn [flat_map].
  rewrite <- (sendEmail_result ses subject htmlContent textContent p ep Vp) in Sp.
  rewrite <- (sendEmail_result ses subject htmlContent textContent q eq Vq) in Sq.
  destruct (in_split _ _ (window_success_member p Hp Sp)) as (x1 & x2 & ->).
  destruct (in_split _ _ (window_success_member q Hq Sq)) as (y1 & y2 & ->).
  match goal with
  | |- exists l1 l2 l3, _ /\ ?A ++ _ ++ ?B ++ _ ++ ?C = _ =>
      exists (A ++ x1), (x2 ++ B ++ y1), (y2 ++ C)
  end.
  split; [reflexivity |].
  repeat (rewrite <- app_assoc || rewrite <- app_comm_cons). reflexivity.
Qed.

(** X5.  When the answers of the mail service arrive in the order of the
    calls, [successful] lists the accepted recipients in the order of
    [emailList]. *)
Theorem answers_in_order_keep_input_order :
  (forall p q, p <= q -> arrival ses p <= arrival ses q) ->
  exists st,
    sendBatchEmails ses emailList subject htmlContent textContent
      = Some (Returned st) /\
    successful (results st) =
      successes_of
        (all_calls ses emailList subject htmlContent textContent).
Proof.
  intro Hmono.
  assert (forall l i,
            successes_of (settle_order (batch_calls' i l)) =
            successes_of (batch_calls' i l)) as Hbatch.
  { unfold batch_calls. induction l as [| x l IH]; intro i; [reflexivity |].
    cbn [length seq combine map settle_order fold_right].
    fold (settle_order
            (map (fun ke : nat * jsstring => (snd ke, sendEmail' (fst ke) (snd ke)))
               (combine (seq (S i) (length l)) l))).
    rewrite insert_call_successes.
    - rewrite successes_of_cons, IH. symmetry. apply successes_of_cons.
    - intros [e c] id Hin Hres. simpl in *.
      apply (Permutation_in _ (settle_order_perm _)) in Hin.
      apply (batch_calls_In ses subject htmlContent textContent l (S i))
        in Hin as (pos & _ & ->).
      pose proof (sendEmail_fulfilled_valid _ _ Hres) as Hv.
      rewrite !sendEmail_settles, Hv.
      pose proof (Hmono i (S i + pos) ltac:(lia)).
      destruct (isValidEmail x); lia. }
  rewrite sendBatchEmails_returns. eexists. split; [reflexivity |].
  rewrite iterations_successful.
  rewrite <- (window_calls_all ses emailList subject htmlContent textContent).
  unfold successes_of at 2. rewrite flat_map_flat_map.
  apply flat_map_ext. intro j. apply Hbatch.
Qed.

End Order.

Lemma earlier_batch_is_recorded_first_witness :
  exists st l1 l2 l3,
    sendBatchEmails example_ses (repeat (js "user@example.com") 120)
      None None None = Some (Returned st) /\
    successful (results st) =
      l1 ++ {| email := js "user@example.com"; messageId := js "0100018f-id" |}
         :: l2
         ++ {| email := js "user@example.com"; messageId := js "0100018f-id" |}
         :: l3.
Proof.
  apply (@earlier_batch_is_recorded_first example_ses
           (repeat (js "user@example.com") 120) None None None
           48 50 (js "user@example.com") (js "user@example.com")
           (js "0100018f-id") (js "0100018f-id"));
    try reflexivity.
  unfold BATCH_SIZE. simpl. lia.
Defined.

Lemma answers_in_order_keep_input_order_witness :
  exists st,
    sendBatchEmails example_ses_in_order
      (map js ["a@b.c"; "c@d.e"; "f@g.h"]%string) None None None
      = Some (Returned st) /\
    successful (results st) =
      successes_of
        (all_calls example_ses_in_order
           (map js ["a@b.c"; "c@d.e"; "f@g.h"]%string) None None None).
Proof.
  apply (@answers_in_order_keep_input_order example_ses_in_order
           (map js ["a@b.c"; "c@d.e"; "f@g.h"]%string) None None None).
  intros p q H. simpl. exact H.
Defined.

(** ** Failures of validation and failures of the service *)

Lemma insert_call_first x l :
  settles (snd x) = 0 -> insert_call x l = x :: l.
Proof.
  intro H. destruct l as [| y l]; simpl; [reflexivity |]. now rewrite H.
Qed.

Lemma insert_call_after x a b :
  Forall (fun y => settles (snd y) < settles (snd x)) a ->
  insert_call x (a ++ b) = a ++ insert_call x b.
Proof.
  induction 1 as [| y a Hy Ha IH]; simpl; [reflexivity |].
  assert ((settles (snd x) <=? settles (snd y)) = false) as ->
    by (apply Nat.leb_gt; exact Hy).
  now rewrite IH.
Qed.

(** The calls that settle without the network come first, in the order in
    which they were made. *)
Lemma settle_order_split l :
  settle_order l =
  filter (fun y => settles (snd y) =? 0) l
    ++ settle_order (filter (fun y => negb (settles (snd y) =? 0)) l).
Proof.
  induction l as [| x l IH]; [reflexivity |].
  cbn [settle_order fold_right filter]. fold (settle_order l). rewrite IH.
  destruct (settles (snd x) =? 0) eqn:E; cbn [negb].
  - apply Nat.eqb_eq in E. now rewrite insert_call_first.
  - apply Nat.eqb_neq in E. rewrite insert_call_after; [reflexivity |].
    apply Forall_forall. intros y Hy. apply filter_In in Hy as [_ Hy].
    apply Nat.eqb_eq in Hy. lia.
Qed.

Lemma failures_of_app l1 l2 :
  failures_of (l1 ++ l2) = failures_of l1 ++ failures_of l2.
Proof. apply flat_map_app. Qed.

Lemma batch_calls_invalid ses subject htmlContent textContent
    (l : list jsstring) : forall i,
  failures_of
    (filter (fun y => settles (snd y) =? 0)
       (batch_calls ses subject htmlContent textContent i l)) =
  map (fun e => {| failed_email := e;
                   error := js "Invalid email address: " ++ e |})
      (filter (fun e => negb (isValidEmail e)) l).
Proof.
  unfold batch_calls. induction l as [| x l IH]; intro i; [reflexivity |].
  cbn [length seq combine map filter fst snd].
  rewrite sendEmail_settles.
  destruct (isValidEmail x) eqn:E; cbn [negb Nat.eqb].
  - apply IH.
  - change (failures_of (?h :: ?t)) with (failures_of ([h] ++ t)).
    rewrite failures_of_app, IH. unfold failures_of at 1. cbn [flat_map fst snd].
    now rewrite sendEmail_invalid by exact E.
Qed.

(** X13.  In every batch the addresses that [isValidEmail] rejects are put
    on [failed] first, in input order and with the message of [sendEmail],
    before any failure reported by the mail service for that batch; the
    batches follow each other in [failed]. *)
Theorem invalid_addresses_fail_first
    ses emailList subject htmlContent textContent :
  exists st rejected,
    sendBatchEmails ses emailList subject htmlContent textContent
      = Some (Returned st) /\
    failed (results st) =
      flat_map
        (fun j =>
           map (fun e => {| failed_email := e;
                            error := js "Invalid email address: " ++ e |})
               (filter (fun e => negb (isValidEmail e)) (window emailList j))
           ++ rejected j)
        (seq 0 (ceil_div (length emailList) BATCH_SIZE)) /\
    (forall j f, In f (rejected j) -> isValidEmail (failed_email f) = true).
Proof.
  rewrite sendBatchEmails_returns. eexists.
  exists (fun j =>
            failures_of
              (settle_order
                 (filter (fun y => negb (settles (snd y) =? 0))
                    (window_calls ses emailList subject htmlContent textContent j)))).
  split; [reflexivity |]. split.
  - rewrite iterations_failed. apply flat_map_ext. intro j.
    rewrite settle_order_split, failures_of_app. f_equal.
    apply batch_calls_invalid.
  - intros j f Hf. unfold failures_of in Hf.
    apply in_flat_map in Hf as ([e c] & Hin & Hf).
    apply (Permutation_in _ (settle_order_perm _)) in Hin.
    apply filter_In in Hin as [Hin Hs].
    apply batch_calls_In in Hin as (pos & _ & ->).
    cbn [fst snd] in *. rewrite sendEmail_settles in Hs.
    destruct (result _); [contradiction |].
    destruct Hf as [<- | []]. cbn [failed_email].
    now destruct (isValidEmail e).
Qed.

(** ** What [main] reports *)

(** X14.  A run of [main] that passes its two checks prints the number of
    successes and the number of failures, which add up to the number of
    recipients, and one line per failure with its address and its error. *)
Theorem main_reports_every_failure ses argv :
  skipn 2 argv <> [] ->
  (forall e, In e (skipn 2 argv) -> isValidEmail e = true) ->
  exists r res,
    main ses argv = Some r /\
    summary r = Some res /\
    In (console_log [js "Successfully sent: "
                       ++ Number_toString (length (successful res))])
       (output r) /\
    In (console_log [js "Failed: " ++ Number_toString (length (failed res))])
       (output r) /\
    length (successful res) + length (failed res) = length (skipn 2 argv) /\
    (forall f, In f (failed res) ->
       In (console_log [failed_email f ++ js ": " ++ error f]) (output r)).
Proof.
  intros Hne Hall. unfold main.
  fold main_subject main_html main_text.
  rewrite (filter_invalid_nil _ Hall), sendBatchEmails_returns.
  destruct (skipn 2 argv) as [| x l] eqn:El; [congruence |].
  change (length (x :: l) =? 0) with false. cbv iota.
  change (0 <? length (@nil jsstring)) with false. cbv iota.
  eexists. eexists. split; [reflexivity |]. cbn [summary output].
  split; [reflexivity |].
  split.
  { right. apply in_or_app. right. apply in_or_app. left.
    right. left. reflexivity. }
  split.
  { right. apply in_or_app. right. apply in_or_app. left.
    right. right. left. reflexivity. }
  split; [apply final_count |].
  intros f Hf. right. apply in_or_app. right. apply in_or_app. right.
  destruct (failed _) as [| f0 fs] eqn:Ef; [contradiction |].
  change (0 <? length (f0 :: fs)) with true. cbv iota.
  right. apply in_map_iff. exists f. auto.
Qed.

Lemma main_reports_every_failure_witness :
  exists r res,
    main example_ses (example_argv ["a@b.c"; "c@d.e"]%string) = Some r /\
    summary r = Some res /\
    In (console_log [js "Successfully sent: "
                       ++ Number_toString (length (successful res))])
       (output r) /\
    In (console_log [js "Failed: " ++ Number_toString (length (failed res))])
       (output r) /\
    length (successful res) + length (failed res) = 2 /\
    (forall f, In f (failed res) ->
       In (console_log [failed_email f ++ js ": " ++ error f]) (output r)).
Proof.
  apply (@main_reports_every_failure example_ses
           (example_argv ["a@b.c"; "c@d.e"]%string)).
  - discriminate.
  - simpl. intros e [<- | [<- | []]]; reflexivity.
Defined.

End SesTheory.

Module ReconTheory.

Import Regex RegexTheory Recon.

Local Open Scope char_scope.

(** ** The language of the pattern *)

Lemma alnum_alnum_hyphen c : alnum c = true -> alnum_hyphen c = true.
Proof. intro H. unfold alnum_hyphen. now rewrite H. Qed.

Lemma matches_dot s : matches dot s <-> s = ["."].
Proof.
  unfold dot. rewrite matches_Cls. split.
  - intros (c & -> & Hc). apply Ascii.eqb_eq in Hc. now subst.
  - intros ->. exists ".". auto.
Qed.

Lemma matches_label s : matches label s <-> label_ok s = true.
Proof.
  unfold label, label_ok. rewrite matches_Alt. split.
  - intros [H | H].
    + apply matches_Cls in H as (c & -> & Hc). simpl.
      now rewrite (alnum_alnum_hyphen _ Hc), Hc.
    + apply matches_Cat in H as (s1 & s2 & -> & H1 & H).
      apply matches_Cat in H as (mid & s3 & -> & Hm & H3).
      apply matches_Cls in H1 as (a & -> & Ha).
      apply matches_Cls in H3 as (b & -> & Hb).
      apply matches_upto_Cls in Hm as [Hl Hm].
      change ([a] ++ mid ++ [b]) with ((a :: mid) ++ [b]).
      rewrite last_last, length_app, forallb_app. simpl.
      rewrite (alnum_alnum_hyphen _ Ha), (alnum_alnum_hyphen _ Hb), Hm, Ha, Hb.
      simpl. rewrite !andb_true_r. apply Nat.leb_le. lia.
  - rewrite !andb_true_iff. intros ((((H1 & H63) & Hall) & Hhd) & Hlast).
    apply Nat.leb_le in H1, H63.
    destruct s as [| a s']; [simpl in H1; lia |].
    simpl in Hhd.
    destruct (exists_last (l := a :: s') ltac:(discriminate)) as (front & b & E).
    rewrite E in Hlast, Hall, H63. rewrite last_last in Hlast.
    destruct front as [| a' mid]; simpl in E; injection E as -> E'.
    + left. subst s'. now constructor.
    + right. subst s'.
      apply (MCat (s1 := [a'])); [now constructor |].
      apply MCat; [| now constructor].
      apply matches_upto_Cls.
      rewrite forallb_app in Hall. simpl in Hall.
      rewrite !andb_true_iff in Hall.
      rewrite length_app in H63. simpl in H63.
      split; [lia | tauto].
Qed.

Lemma matches_hostname_regex s :
  matches hostname_regex s <->
  exists l0 ls,
    s = dotted (l0 :: ls) /\ Forall (fun l => label_ok l = true) (l0 :: ls).
Proof.
  unfold hostname_regex. rewrite matches_Cat. split.
  - intros (l0 & rest & -> & H0 & Hrest).
    apply matches_label in H0.
    apply matches_Star_concat in Hrest as (ws & -> & Hws).
    assert (exists ls, ws = map (fun x => "." :: x) ls /\
                       Forall (fun l => label_ok l = true) ls) as (ls & -> & Hls).
    { induction Hws as [| w ws Hw _ (ls & -> & Hls)].
      - exists []. auto.
      - apply matches_Cat in Hw as (d & l & -> & Hd & Hl).
        apply matches_dot in Hd. subst d. apply matches_label in Hl.
        exists (l :: ls). auto. }
    exists l0, ls. simpl. rewrite flat_map_concat_map. auto.
  - intros (l0 & ls & -> & Hall). inversion Hall as [| ? ? H0 Hls]; subst.
    exists l0, (flat_map (fun x => "." :: x) ls). split; [reflexivity |].
    split; [now apply matches_label |].
    apply matches_Star_concat. exists (map (fun x => "." :: x) ls).
    split; [apply flat_map_concat_map |].
    apply Forall_map. eapply Forall_impl; [| exact Hls].
    intros l Hl. apply (MCat (s1 := ["."])); [now apply matches_dot |].
    now apply matches_label.
Qed.

Lemma valid_hostname_shape s : valid_hostname s = true <-> hostname_shape s.
Proof.
  unfold valid_hostname, hostname_shape.
  rewrite accepts_spec, matches_hostname_regex. split.
  - intros (l0 & ls & E & H). exists (l0 :: ls).
    split; [discriminate | auto].
  - intros ([| l0 ls] & Hne & E & H); [congruence |]. eauto.
Qed.

Example valid_hostname_examples :
  map valid_hostname
      ["example.com"; "a"; "a-b.c-d.e"; "xn--abc.test"; "-a.com"; "a-.com";
       "a..b"; "a.com."; "a_b.com"; "a b"; EmptyString]%string
  = [true; true; true; true; false; false; false; false; false; false; false].
Proof. reflexivity. Qed.

(** A label of 63 characters passes, one of 64 does not. *)
Example valid_hostname_label_length :
  valid_hostname (string_of_list_ascii (repeat "a" 63)) = true /\
  valid_hostname (string_of_list_ascii (repeat "a" 64)) = false.
Proof. split; reflexivity. Qed.

(** ** The final dot *)

Example remove_trailing_dot_examples :
  map remove_trailing_dot
      ["host.example.com."; "host.example.com"; "a.."; "."; EmptyString]%string
  = ["host.example.com"; "host.example.com"; "a."; EmptyString; EmptyString]%string.
Proof. reflexivity. Qed.

Lemma remove_trailing_dot_dot s :
  remove_trailing_dot (s ++ ".") = s.
Proof.
  induction s as [| c s IH]; simpl.
  - reflexivity.
  - rewrite IH. destruct (s ++ ".")%string eqn:E; [| reflexivity].
    destruct s; discriminate.
Qed.

Lemma remove_trailing_dot_other host :
  (forall s, host <> (s ++ ".")%string) -> remove_trailing_dot host = host.
Proof.
  induction host as [| c rest IH]; intro H; simpl.
  - reflexivity.
  - destruct rest as [| c' rest'].
    + destruct (c =? ".") eqn:E; [| reflexivity].
      apply Ascii.eqb_eq in E. subst c. exfalso. now apply (H EmptyString).
    + rewrite IH; [reflexivity |].
      intros s Hs. apply (H (String c s)). simpl. now rewrite Hs.
Qed.

Lemma label_ok_last l : label_ok l = true -> l <> [] /\ alnum (last l "-") = true.
Proof.
  unfold label_ok. rewrite !andb_true_iff.
  intros ((((H1 & _) & _) & _) & Hlast). split; [| exact Hlast].
  destruct l; [discriminate | discriminate].
Qed.

Lemma last_app_cons {A : Type} (a : list A) (y : A) (ys : list A) (d : A) :
  last (a ++ y :: ys) d = last (y :: ys) d.
Proof.
  induction a as [| x a IH]; [reflexivity |].
  change ((x :: a) ++ y :: ys) with (x :: (a ++ y :: ys)).
  destruct (a ++ y :: ys) as [| z zs] eqn:E.
  - destruct a; discriminate.
  - exact IH.
Qed.

Lemma dotted_last labels :
  labels <> [] -> Forall (fun l => label_ok l = true) labels ->
  alnum (last (dotted labels) "-") = true.
Proof.
  destruct labels as [| l0 ls]; [congruence | intros _ H].
  inversion H as [| ? ? H0 Hls]; subst. simpl. clear H.
  revert l0 H0. induction Hls as [| l ls Hl _ IH]; intros l0 H0; simpl.
  - rewrite app_nil_r. now apply label_ok_last.
  - replace (l0 ++ "." :: l ++ flat_map (fun x => "." :: x) ls)
      with ((l0 ++ ["."]) ++ l ++ flat_map (fun x => "." :: x) ls)
      by now rewrite <- app_assoc.
    destruct (label_ok_last _ Hl) as [Hne _].
    specialize (IH l Hl).
    destruct (l ++ flat_map (fun x => "." :: x) ls) as [| y ys] eqn:E.
    + destruct l; [congruence | discriminate].
    + rewrite last_app_cons. exact IH.
Qed.

Lemma remove_trailing_dot_cases host :
  host = (remove_trailing_dot host ++ ".")%string \/
  remove_trailing_dot host = host.
Proof.
  induction host as [| c rest IH].
  - now right.
  - destruct rest as [| c' rest'].
    + simpl. destruct (c =? ".") eqn:E.
      * apply Ascii.eqb_eq in E. subst c. now left.
      * now right.
    + change (remove_trailing_dot (String c (String c' rest')))
        with (String c (remove_trailing_dot (String c' rest'))).
      destruct IH as [IH | IH].
      * left. cbn [append]. f_equal. exact IH.
      * right. now rewrite IH.
Qed.

Lemma list_ascii_of_string_app s t :
  list_ascii_of_string (s ++ t) = list_ascii_of_string s ++ list_ascii_of_string t.
Proof.
  induction s as [| c s IH]; simpl.
  - reflexivity.
  - now rewrite IH.
Qed.

Lemma hostname_shape_no_final_dot line :
  hostname_shape line -> forall s, line <> (s ++ ".")%string.
Proof.
  intros (labels & Hne & E & Hall) s ->.
  pose proof (dotted_last Hne Hall) as H.
  rewrite <- E, list_ascii_of_string_app in H. simpl in H.
  rewrite last_last in H. discriminate.
Qed.

(** ** The loop *)

Lemma validation_loop_written tmp : forall out,
  validation_loop tmp out = out ++ written tmp.
Proof.
  unfold validation_loop, written.
  induction tmp as [| host tmp IH]; intro out; simpl.
  - now rewrite app_nil_r.
  - rewrite IH. unfold process_line.
    destruct (non_empty host); simpl; [| reflexivity].
    destruct (valid_hostname (remove_trailing_dot host)); simpl.
    + now rewrite <- app_assoc.
    + reflexivity.
Qed.

Example validation_loop_example :
  validation_loop
    ["dns.google."; "-bad.example."; EmptyString; "one.one.one.one.";
     "3(NXDOMAIN)"]%string
    ["kept.example"]%string
  = ["kept.example"; "dns.google"; "one.one.one.one"]%string.
Proof. reflexivity. Qed.

(** C10.  The loop only adds lines to out.txt, and every line it adds
    comes from a non-empty line of tmp.txt by removing one final dot when
    there is one, is not empty, passes the validation pattern, that is,
    consists of labels separated by dots, each label made of 1 to 63
    letters, digits or hyphens and neither starting nor ending with a
    hyphen; a line of tmp.txt whose stripped form fails the pattern adds
    nothing. *)
Theorem out_lines_are_valid_hostnames (tmp out : list string) :
  validation_loop tmp out = out ++ written tmp /\
  (forall line, In line (written tmp) ->
     line <> EmptyString /\
     (exists host,
        In host tmp /\ host <> EmptyString /\
        line = remove_trailing_dot host /\
        (host = (line ++ ".")%string \/ host = line)) /\
     valid_hostname line = true /\
     hostname_shape line /\
     (forall s, line <> (s ++ ".")%string)) /\
  (forall host out',
     valid_hostname (remove_trailing_dot host) = false ->
     process_line out' host = out').
Proof.
  split; [apply validation_loop_written |]. split.
  - intros line Hin. unfold written in Hin.
    apply in_flat_map in Hin as (host & Hhost & Hline).
    destruct (non_empty host) eqn:Hn; simpl in Hline; [| contradiction].
    destruct (valid_hostname (remove_trailing_dot host)) eqn:Hv;
      [| contradiction].
    destruct Hline as [<- | []].
    pose proof (proj1 (valid_hostname_shape _) Hv) as Hshape.
    split.
    { intro E. rewrite E in Hv. discriminate. }
    split.
    { exists host. split; [exact Hhost |].
      split; [now destruct host |]. split; [reflexivity |].
      destruct (remove_trailing_dot_cases host) as [H | H]; auto. }
    split; [exact Hv |]. split; [exact Hshape |].
    now apply hostname_shape_no_final_dot.
  - intros host out' Hv. unfold process_line. rewrite Hv.
    now destruct (non_empty host).
Qed.

(** X16.  [${host%.}] removes one final dot and no more: a line that ends
    with a dot loses that dot only, even when another dot comes before it,
    and a line that does not end with a dot is kept as it is. *)
Theorem one_final_dot_is_removed (s : string) :
  remove_trailing_dot (s ++ ".") = s /\
  ((forall t, s <> (t ++ ".")%string) -> remove_trailing_dot s = s) /\
  remove_trailing_dot (s ++ "..") = (s ++ ".")%string.
Proof.
  split; [| split].
  - induction s as [| c s IH]; simpl; [reflexivity |].
    rewrite IH. destruct (s ++ ".")%string eqn:E; [| reflexivity].
    destruct s; discriminate.
  - apply remove_trailing_dot_other.
  - induction s as [| c s IH]; simpl; [reflexivity |].
    rewrite IH. destruct (s ++ "..")%string eqn:E; [| reflexivity].
    destruct s; discriminate.
Qed.

(** ** The address filter *)

Lemma matches_octet s : matches octet s <-> octet_ok s = true.
Proof.
  unfold octet, octet_ok.
  rewrite (@matches_between_Cls _ digit 1 3 s) by lia.
  rewrite !andb_true_iff, !Nat.leb_le. tauto.
Qed.

Example ipv4_line_examples :
  map ipv4_line
      ["1.2.3.4"; "999.999.999.999"; "01.02.03.004"; "1.2.3"; "1.2.3.4.5";
       "1.2.3.4 "; "a.b.c.d"; "1234.1.1.1"; "1..2.3"; EmptyString]%string
  = [true; true; true; false; false; false; false; false; false; false].
Proof. reflexivity. Qed.

(** X6.  A line of the input file is looked up exactly when it is made of
    four groups of one to three decimal digits separated by dots, with
    nothing before or after; the value of a group is not checked. *)
Theorem ipv4_line_iff (ip : string) :
  ipv4_line ip = true <->
  exists a b c d,
    list_ascii_of_string ip = a ++ "." :: b ++ "." :: c ++ "." :: d /\
    octet_ok a = true /\ octet_ok b = true /\
    octet_ok c = true /\ octet_ok d = true.
Proof.
  unfold ipv4_line, ipv4_regex. rewrite accepts_spec. split.
  - intro H.
    apply matches_Cat in H as (a & s1 & -> & Ha & H).
    apply matches_Cat in H as (d1 & s2 & -> & Hd1 & H).
    apply matches_Cat in H as (b & s3 & -> & Hb & H).
    apply matches_Cat in H as (d2 & s4 & -> & Hd2 & H).
    apply matches_Cat in H as (c & s5 & -> & Hc & H).
    apply matches_Cat in H as (d3 & d & -> & Hd3 & Hd).
    apply matches_dot in Hd1, Hd2, Hd3. subst d1 d2 d3.
    apply matches_octet in Ha, Hb, Hc, Hd.
    exists a, b, c, d. simpl. auto.
  - intros (a & b & c & d & -> & Ha & Hb & Hc & Hd).
    apply matches_octet in Ha, Hb, Hc, Hd.
    apply MCat; [exact Ha |].
    apply (MCat (s1 := ["."])); [now apply matches_dot |].
    apply MCat; [exact Hb |].
    apply (MCat (s1 := ["."])); [now apply matches_dot |].
    apply MCat; [exact Hc |].
    apply (MCat (s1 := ["."])); [now apply matches_dot | exact Hd].
Qed.

(** ** [sort -u] *)





Lemma insert_line_In x l z : In z (insert_line x l) <-> z = x \/ In z l.
Proof.
  induction l as [| y l IH]; simpl.
  - intuition.
  - destruct (String.compare x y) eqn:E; simpl.
    + apply String.compare_eq_iff in E. subst y. intuition.
    + intuition.
    + rewrite IH. intuition.
Qed.

Lemma sort_u_In l z : In z (sort_u l) <-> In z l.
Proof.
  induction l as [| x l IH]; simpl.
  - tauto.
  - rewrite insert_line_In, IH. intuition.
Qed.




(** ** What reaches out.txt *)

Lemma non_empty_iff h : non_empty h = true <-> h <> EmptyString.
Proof. destruct h; simpl; split; congruence. Qed.

Lemma written_In tmp line :
  In line (written tmp) <->
  exists raw,
    In raw tmp /\ raw <> EmptyString /\
    line = remove_trailing_dot raw /\ valid_hostname line = true.
Proof.
  unfold written. rewrite in_flat_map. split.
  - intros (raw & Hraw & H).
    destruct (non_empty raw) eqn:Hn; simpl in H; [| contradiction].
    destruct (valid_hostname (remove_trailing_dot raw)) eqn:Hv; [| contradiction].
    destruct H as [<- | []]. exists raw.
    apply non_empty_iff in Hn. auto.
  - intros (raw & Hraw & Hn & -> & Hv). exists raw. split; [exact Hraw |].
    apply non_empty_iff in Hn. rewrite Hn, Hv. now left.
Qed.

(** ** Files and lines *)

Lemma append_assoc (a b c : string) :
  ((a ++ b) ++ c)%string = (a ++ b ++ c)%string.
Proof. induction a as [| x a IH]; simpl; [reflexivity | now rewrite IH]. Qed.

Lemma append_nil_r (a : string) : (a ++ EmptyString)%string = a.
Proof. induction a as [| x a IH]; simpl; [reflexivity | now rewrite IH]. Qed.

Lemma cut_free_rest rest :
  free_of LF rest = true -> cut rest = ([], rest).
Proof.
  induction rest as [| c rest IH]; simpl; [reflexivity |].
  rewrite andb_true_iff, negb_true_iff. intros [Hc H].
  now rewrite IH, Hc.
Qed.

Lemma cut_line l s :
  free_of LF l = true ->
  cut (l ++ String LF s) = (l :: fst (cut s), snd (cut s)).
Proof.
  induction l as [| c l IH]; simpl.
  - intros _. destruct (cut s) as [ls rest]. reflexivity.
  - rewrite andb_true_iff, negb_true_iff. intros [Hc H].
    now rewrite IH, Hc.
Qed.

(** A file of complete lines followed by a piece without newline. *)
Lemma cut_unlines ls rest :
  Forall (fun l => free_of LF l = true) ls ->
  free_of LF rest = true ->
  cut (unlines ls ++ rest) = (ls, rest).
Proof.
  intros Hls Hrest. induction Hls as [| l ls Hl _ IH]; simpl.
  - now apply cut_free_rest.
  - rewrite append_assoc. simpl. rewrite cut_line by exact Hl. now rewrite IH.
Qed.

Lemma cut_free content :
  Forall (fun l => free_of LF l = true) (fst (cut content)) /\
  free_of LF (snd (cut content)) = true.
Proof.
  induction content as [| c s [IH1 IH2]]; simpl; [auto |].
  destruct (cut s) as [ls rest]. simpl in IH1, IH2.
  destruct (c =? LF) eqn:Ec; simpl.
  - split; [constructor; [reflexivity | exact IH1] | exact IH2].
  - destruct ls as [| l ls']; simpl.
    + now rewrite Ec, IH2.
    + apply Forall_cons_iff in IH1 as [Hl Hls].
      split; [| exact IH2]. constructor; [| exact Hls].
      simpl. now rewrite Ec, Hl.
Qed.

Lemma text_lines_free content :
  Forall (fun l => free_of LF l = true) (text_lines content).
Proof.
  unfold text_lines. destruct (cut_free content) as [H1 H2].
  destruct (cut content) as [ls rest]. simpl in *.
  destruct rest; [exact H1 |].
  apply Forall_app. split; [exact H1 | now constructor].
Qed.

Lemma read_lines_unlines ls :
  Forall (fun l => free_of LF l = true) ls ->
  read_lines (unlines ls) = map remove_nul ls.
Proof.
  intro H. unfold read_lines.
  rewrite <- (append_nil_r (unlines ls)), cut_unlines by (exact H || reflexivity).
  reflexivity.
Qed.

(** The last line of [example_ips] has no newline and is not read. *)
Example read_lines_example :
  read_lines example_ips = ["8.8.8.8"; "# comment"; "999.1.1.1"; "8.8.8.8 "]%string /\
  text_lines example_ips
  = ["8.8.8.8"; "# comment"; "999.1.1.1"; "8.8.8.8 "; "1.1.1.1"]%string.
Proof. split; reflexivity. Qed.

(** ** The script *)

(** tmp.txt held a line without newline: the first answer is glued to
    it. *)
Example ip_recon_example :
  ip_recon example_dns example_files "./ip_recon.sh" ["ips.txt"]%string
    (Some "stale.example"%string) (Some (unlines ["old.example"]%string))
  = {| stdout := ["IP processing complete. Results in out.txt"]%string;
       exit_status := 0;
       lookups := [dig_lookup "8.8.8.8"; dig_lookup "999.1.1.1";
                   host_lookup "8.8.8.8"; host_lookup "999.1.1.1"]%string;
       out_txt :=
         Some (unlines ["old.example"; "dns.google";
                        "stale.exampledns.google"]%string);
       tmp_txt := None |}.
Proof. reflexivity. Qed.

(** X7.  Unless the script gets exactly one argument and that argument
    names a regular file, it stops with status 1 after one line of
    explanation: it looks nothing up and leaves tmp.txt and out.txt as
    they were. *)
Theorem bad_invocation_does_nothing
    dns read_file script argv (tmp0 out0 : option string) :
  (forall ip_file, argv = [ip_file] -> read_file ip_file = None) ->
  let r := ip_recon dns read_file script argv tmp0 out0 in
  exit_status r = 1 /\
  lookups r = [] /\
  out_txt r = out0 /\
  tmp_txt r = tmp0 /\
  length (stdout r) = 1.
Proof.
  intro H. unfold ip_recon.
  destruct argv as [| ip_file [| x rest]]; simpl; auto.
  rewrite (H ip_file eq_refl). simpl. auto.
Qed.

Lemma bad_invocation_does_nothing_witness :
  let r := ip_recon example_dns example_files "./ip_recon.sh"
             ["missing.txt"]%string
             (Some (unlines ["stale."]%string))
             (Some (unlines ["old.example"]%string)) in
  exit_status r = 1 /\
  lookups r = [] /\
  out_txt r = Some (unlines ["old.example"]%string) /\
  tmp_txt r = Some (unlines ["stale."]%string) /\
  length (stdout r) = 1.
Proof.
  apply (@bad_invocation_does_nothing example_dns example_files
           "./ip_recon.sh" ["missing.txt"]%string
           (Some (unlines ["stale."]%string))
           (Some (unlines ["old.example"]%string))).
  intros ip_file E. injection E as <-. reflexivity.
Defined.

Lemma dig_loop dns (ips : list string) : forall i tmp q,
  fold_left (dig_step dns) (combine (seq i (length ips)) ips) (tmp, q) =
  ((tmp ++ glue (flat_map (fun nip : nat * string =>
                             if ipv4_line (snd nip)
                             then [dig_x dns (fst nip) (snd nip)] else [])
                          (combine (seq i (length ips)) ips)))%string,
   q ++ map dig_lookup (filter ipv4_line ips)).
Proof.
  induction ips as [| ip ips IH]; intros i tmp q; simpl.
  - now rewrite append_nil_r, app_nil_r.
  - destruct (ipv4_line ip); simpl; rewrite IH.
    + now rewrite append_assoc, <- app_assoc.
    + reflexivity.
Qed.

Lemma host_loop dns (ips : list string) : forall i tmp q,
  fold_left (host_step dns) (combine (seq i (length ips)) ips) (tmp, q) =
  ((tmp ++ glue (flat_map (fun nip : nat * string =>
                             if ipv4_line (snd nip)
                             then [unlines
                                     (awk_print_5
                                        (grep_pointer
                                           (text_lines (host dns (fst nip) (snd nip)))))]
                             else [])
                          (combine (seq i (length ips)) ips)))%string,
   q ++ map host_lookup (filter ipv4_line ips)).
Proof.
  induction ips as [| ip ips IH]; intros i tmp q; simpl.
  - now rewrite append_nil_r, app_nil_r.
  - destruct (ipv4_line ip); simpl; rewrite IH.
    + now rewrite append_assoc, <- app_assoc.
    + reflexivity.
Qed.

Lemma sort_u_free l :
  Forall (fun x => free_of LF x = true) l ->
  Forall (fun x => free_of LF x = true) (sort_u l).
Proof.
  rewrite !Forall_forall. intros H x Hx. apply H. now apply sort_u_In.
Qed.

(** The run on a regular file. *)
Lemma ip_recon_run dns read_file script ip_file content
    (tmp0 out0 : option string) :
  read_file ip_file = Some content ->
  let ips := read_lines content in
  let added :=
    written (map remove_nul
               (sort_u (text_lines (tmp_after_loops dns ips tmp0)))) in
  ip_recon dns read_file script [ip_file] tmp0 out0 =
  {| stdout := ["IP processing complete. Results in out.txt"]%string;
     exit_status := 0;
     lookups := map dig_lookup (filter ipv4_line ips)
                  ++ map host_lookup (filter ipv4_line ips);
     out_txt :=
       match added with
       | [] => out0
       | _ :: _ => Some (content_of out0 ++ unlines added)%string
       end;
     tmp_txt := None |}.
Proof.
  intros H ips added. unfold ip_recon. rewrite H. fold ips.
  unfold numbered. rewrite dig_loop, host_loop. cbn [fst snd app].
  rewrite append_assoc. fold (numbered ips).
  fold (tmp_after_loops dns ips tmp0).
  rewrite read_lines_unlines by apply sort_u_free, text_lines_free.
  rewrite validation_loop_written. cbn [app]. fold added.
  reflexivity.
Qed.

(** X8.  Given a regular file, the script ends with status 0 having run
    [dig -x] once for each line that [read] delivers (the lines that end
    with a newline, without their NUL bytes) and that has the shape of an
    IPv4 address, in the order of the file, and then [host] once for each
    of them in the same order; nothing else is looked up, in particular
    not a last line without newline; tmp.txt is gone at the end. *)
Theorem lookups_are_the_address_lines
    dns read_file script ip_file content (tmp0 out0 : option string) :
  read_file ip_file = Some content ->
  let r := ip_recon dns read_file script [ip_file] tmp0 out0 in
  exit_status r = 0 /\
  lookups r = map dig_lookup (filter ipv4_line (read_lines content))
                ++ map host_lookup (filter ipv4_line (read_lines content)) /\
  (forall ip, In (dig_lookup ip) (lookups r) \/ In (host_lookup ip) (lookups r) ->
     In ip (read_lines content) /\ ipv4_line ip = true) /\
  (forall ls rest,
     Forall (fun l => free_of LF l = true) ls -> free_of LF rest = true ->
     content = (unlines ls ++ rest)%string ->
     read_lines content = map remove_nul ls) /\
  tmp_txt r = None.
Proof.
  intro H. cbv zeta.
  rewrite (ip_recon_run dns read_file script ip_file tmp0 out0 H).
  cbn [exit_status lookups tmp_txt].
  split; [reflexivity |]. split; [reflexivity |]. split; [| split; [| reflexivity]].
  - intros ip [Hin | Hin]; apply in_app_or in Hin as [Hin | Hin];
      apply in_map_iff in Hin as (x & E & Hx); try discriminate;
      injection E as ->; now apply filter_In in Hx.
  - intros ls rest Hls Hrest ->. unfold read_lines.
    now rewrite cut_unlines.
Qed.

Lemma lookups_are_the_address_lines_witness :
  let r := ip_recon example_dns example_files "./ip_recon.sh"
             ["ips.txt"]%string None (Some (unlines ["old.example"]%string)) in
  exit_status r = 0 /\
  lookups r = map dig_lookup (filter ipv4_line (read_lines example_ips))
                ++ map host_lookup (filter ipv4_line (read_lines example_ips)) /\
  (forall ip, In (dig_lookup ip) (lookups r) \/ In (host_lookup ip) (lookups r) ->
     In ip (read_lines example_ips) /\ ipv4_line ip = true) /\
  (forall ls rest,
     Forall (fun l => free_of LF l = true) ls -> free_of LF rest = true ->
     example_ips = (unlines ls ++ rest)%string ->
     read_lines example_ips = map remove_nul ls) /\
  tmp_txt r = None.
Proof.
  apply (@lookups_are_the_address_lines example_dns example_files
           "./ip_recon.sh" "ips.txt"%string example_ips
           None (Some (unlines ["old.example"]%string))).
  reflexivity.
Defined.

(** X9.  Given a regular file, and name servers whose [host] prints text
    without NUL bytes, the script only adds lines at the end of out.txt
    (and leaves it alone when it has none to add), and the lines it adds
    are exactly the valid names in tmp.txt as the two loops leave it: a
    line is added when and only when it passes the validation and is,
    without NUL bytes and up to one final dot, a non-empty line of that
    file (what tmp.txt held at the start, then what [dig] printed, then
    the names from [host], [grep] and [awk], written one after the
    other). *)
Theorem out_txt_gets_the_valid_answers
    dns read_file script ip_file content (tmp0 out0 : option string) :
  read_file ip_file = Some content ->
  (forall n ip, free_of NUL (host dns n ip) = true) ->
  exists added,
    out_txt (ip_recon dns read_file script [ip_file] tmp0 out0)
      = match added with
        | [] => out0
        | _ :: _ => Some (content_of out0 ++ unlines added)%string
        end /\
    forall line,
      In line added <->
      exists raw,
        In raw (text_lines (tmp_after_loops dns (read_lines content) tmp0)) /\
        remove_nul raw <> EmptyString /\
        line = remove_trailing_dot (remove_nul raw) /\
        valid_hostname line = true.
Proof.
  intros H _.
  rewrite (ip_recon_run dns read_file script ip_file tmp0 out0 H).
  eexists. split; [reflexivity |].
  intro line. rewrite written_In. split.
  - intros (x & Hx & Hrest).
    apply in_map_iff in Hx as (raw & <- & Hraw).
    exists raw. split; [now apply sort_u_In | exact Hrest].
  - intros (raw & Hraw & Hrest). exists (remove_nul raw).
    split; [| exact Hrest].
    apply in_map. now apply sort_u_In.
Qed.

Lemma out_txt_gets_the_valid_answers_witness :
  exists added,
    out_txt (ip_recon example_dns example_files "./ip_recon.sh"
               ["ips.txt"]%string (Some "stale.example"%string)
               (Some (unlines ["old.example"]%string)))
      = match added with
        | [] => Some (unlines ["old.example"]%string)
        | _ :: _ =>
            Some (content_of (Some (unlines ["old.example"]%string))
                  ++ unlines added)%string
        end /\
    forall line,
      In line added <->
      exists raw,
        In raw (text_lines
                  (tmp_after_loops example_dns (read_lines example_ips)
                     (Some "stale.example"%string))) /\
        remove_nul raw <> EmptyString /\
        line = remove_trailing_dot (remove_nul raw) /\
        valid_hostname line = true.
Proof.
  apply (@out_txt_gets_the_valid_answers example_dns example_files
           "./ip_recon.sh" "ips.txt"%string example_ips
           (Some "stale.example"%string)
           (Some (unlines ["old.example"]%string))).
  - reflexivity.
  - intros n ip. unfold example_dns. cbn [host].
    destruct (ip =? "8.8.8.8")%string; reflexivity.
Defined.

Lemma written_app l1 l2 : written (l1 ++ l2) = written l1 ++ written l2.
Proof. apply flat_map_app. Qed.



Lemma append_dot_neq h : h <> (h ++ ".")%string.
Proof.
  induction h as [| c h IH]; simpl; [discriminate |].
  intro E. injection E as E. now apply IH.
Qed.



Lemma two_members {A : Type} (l : list A) (a b : A) :
  In a l -> In b l -> a <> b ->
  exists l1 l2 l3,
    l = l1 ++ a :: l2 ++ b :: l3 \/ l = l1 ++ b :: l2 ++ a :: l3.
Proof.
  intros Ha Hb Hne.
  destruct (in_split _ _ Ha) as (l1 & l2 & ->).
  apply in_app_or in Hb as [Hb | [Hb | Hb]]; [| congruence |].
  - destruct (in_split _ _ Hb) as (m1 & m2 & ->).
    exists m1, m2, l2. right. now rewrite <- app_assoc.
  - destruct (in_split _ _ Hb) as (m1 & m2 & ->).
    exists l1, m1, m2. now left.
Qed.

(** X11.  When tmp.txt holds a valid name both with and without a final
    dot, [sort -u] keeps the two lines and the name is added to out.txt
    twice. *)
Theorem name_with_and_without_dot_is_added_twice (tmp : list string) (h : string) :
  In h tmp ->
  In (h ++ ".")%string tmp ->
  valid_hostname h = true ->
  exists l1 l2 l3, written (sort_u tmp) = l1 ++ h :: l2 ++ h :: l3.
Proof.
  intros Hh Hd Hv.
  assert (written [h] = [h]) as E1.
  { unfold written. cbn [flat_map].
    assert (h <> EmptyString) as Hne by (intros ->; discriminate).
    apply non_empty_iff in Hne.
    rewrite remove_trailing_dot_other, Hne, Hv; [reflexivity |].
    apply hostname_shape_no_final_dot, valid_hostname_shape, Hv. }
  assert (written [(h ++ ".")%string] = [h]) as E2.
  { unfold written. cbn [flat_map].
    rewrite remove_trailing_dot_dot, Hv.
    now destruct h. }
  apply (proj2 (sort_u_In _ _)) in Hh. apply (proj2 (sort_u_In _ _)) in Hd.
  destruct (@two_members _ _ _ _ Hh Hd (@append_dot_neq h))
    as (l1 & l2 & l3 & [E | E]); rewrite E;
    exists (written l1), (written l2), (written l3);
    rewrite written_app;
    [change (h :: l2 ++ (h ++ ".")%string :: l3)
       with ([h] ++ l2 ++ [(h ++ ".")%string] ++ l3)
    |change ((h ++ ".")%string :: l2 ++ h :: l3)
       with ([(h ++ ".")%string] ++ l2 ++ [h] ++ l3)];
    rewrite !written_app, E1, E2; reflexivity.
Qed.

Lemma name_with_and_without_dot_is_added_twice_witness :
  exists l1 l2 l3,
    written (sort_u ["dns.google."; "a.example"; "dns.google"]%string)
    = l1 ++ "dns.google"%string :: l2 ++ "dns.google"%string :: l3.
Proof.
  apply (@name_with_and_without_dot_is_added_twice
           ["dns.google."; "a.example"; "dns.google"]%string
           "dns.google"%string).
  - simpl. auto.
  - simpl. auto.
  - reflexivity.
Defined.

(** ** [grep] and [awk] *)








End ReconTheory.

Module CorsTheory.

Import Ses Cors.

Lemma startsWith_iff word s :
  startsWith word s = true <-> exists b, s = word ++ b.
Proof.
  revert s. induction word as [| a word IH]; intros [| c s]; simpl.
  - split; [eauto | reflexivity].
  - split; [eauto | reflexivity].
  - split; [discriminate | intros (b & E); discriminate].
  - rewrite andb_true_iff, N.eqb_eq, IH. split.
    + intros [-> (b & ->)]. eauto.
    + intros (b & E). injection E as -> ->. eauto.
Qed.

Lemma includes_iff s word :
  includes s word = true <-> exists a b, s = a ++ word ++ b.
Proof.
  induction s as [| c s IH]; simpl.
  - rewrite orb_false_r, startsWith_iff. split.
    + intros (b & E). exists [], b. exact E.
    + intros (a & b & E). symmetry in E.
      apply app_eq_nil in E as [-> E]. apply app_eq_nil in E as [-> ->].
      exists []. reflexivity.
  - rewrite orb_true_iff, startsWith_iff, IH. split.
    + intros [(b & E) | (a & b & ->)].
      * exists [], b. exact E.
      * exists (c :: a), b. reflexivity.
    + intros ([| x a] & b & E); simpl in E.
      * left. eauto.
      * right. injection E as -> ->. eauto.
Qed.

Example possibly_reflected_cors_origin_examples :
  map (fun i => truthy (callback i))
      [example_item (Some "https://shop.example") (Some "shop.example");
       example_item (Some "*") (Some "shop.example");
       example_item (Some "https://shop.example") (Some EmptyString);
       example_item (Some "https://shop.example") None;
       example_item (Some "https://undefined.example") None;
       example_item (Some EmptyString) (Some EmptyString);
       example_item None (Some "shop.example");
       None]%string
  = [true; false; true; false; true; false; false; false].
Proof. reflexivity. Qed.

(** X15.  The filter keeps an item exactly when the item has a non-empty
    Access-Control-Allow-Origin response header in which the value of the
    Host request header occurs; when the item has no Host request header,
    the text looked for is ["undefined"]. *)
Theorem possibly_reflected_cors_origin_iff (items : list (option Item)) i :
  In i (possibly_reflected_cors_origin items) <->
  In i items /\
  exists origin a b,
    response_header i (js "Access-Control-Allow-Origin") = Some origin /\
    origin <> [] /\
    origin = a ++ ToString (request_header i (js "Host")) ++ b.
Proof.
  unfold possibly_reflected_cors_origin. rewrite filter_In.
  apply and_iff_compat_l. unfold callback.
  destruct (response_header i (js "Access-Control-Allow-Origin"))
    as [[| c o] |]; cbn [truthy].
  - split; [discriminate |]. intros (origin & a & b & E & Hne & _).
    injection E as <-. congruence.
  - rewrite includes_iff. split.
    + intros (a & b & E). exists (c :: o), a, b.
      split; [reflexivity |]. split; [discriminate | exact E].
    + intros (origin & a & b & E & _ & Ho). injection E as <-. eauto.
  - split; [discriminate |]. intros (origin & a & b & E & _). discriminate.
Qed.

End CorsTheory.
